(** * The item store of the TODO backend (packages/backend/src/app.js)

    A shallow embedding of the Express handlers of the backend and of the
    part of SQLite and of the JavaScript runtime they rely on, followed by
    the properties of the item store.

    Conventions of the model.
    - A JavaScript string is a [string]: one [ascii] per UTF-16 code unit,
      for the code units below 256.  On these the order of the code units
      is the order of the UTF-8 bytes SQLite compares.
    - A timestamp written by [CURRENT_TIMESTAMP] is the number of seconds it
      denotes, a [Z]; the text SQLite stores has a fixed width, so that its
      order is the order of these numbers.
    - The clock is an input: every handler takes the value [now] that
      [CURRENT_TIMESTAMP] has while the request runs.
    - [description] and [due_date] of a request body range over what the
      API documents for them: absent, [null] or a string.  A stored
      [due_date] keeps storage class TEXT (a string that is a numeric
      literal, which the NUMERIC affinity of the column would convert, is
      outside the model). *)

From Stdlib Require Import ZArith NArith List String Ascii Bool Lia.
From Stdlib Require Import Sorted Permutation.
Import ListNotations.

Local Open Scope string_scope.
Local Open Scope Z_scope.

(* ================================================================== *)
(** ** JavaScript values and the built-ins the handlers call *)
(* ================================================================== *)

Module Js.

(** A value of a JSON request body.  Numbers are the integer-valued ones;
    objects and arrays are left out. *)
Inductive value : Type :=
| Undefined
| Null
| Bool (b : bool)
| Number (n : Z)
| Str (s : string).

(** A field documented as [string | null], possibly absent. *)
Inductive text : Type :=
| Absent
| NoText
| Text (s : string).

(** ToBoolean. *)
Definition truthy (v : value) : bool :=
  match v with
  | Undefined | Null => false
  | Bool b => b
  | Number n => negb (n =? 0)
  | Str s => negb (s =? "")%string
  end.

(** [v === true] and [v === 1]. *)
Definition strict_eq_true (v : value) : bool :=
  match v with Bool true => true | _ => false end.

Definition strict_eq_one (v : value) : bool :=
  match v with Number n => n =? 1 | _ => false end.

(** [typeof v === 'string'], with the string it holds. *)
Definition as_string (v : value) : option string :=
  match v with Str s => Some s | _ => None end.

(** [a || null] on a text field: a falsy value (absent, [null], the empty
    string) becomes [null]. *)
Definition or_null (t : text) : option string :=
  match t with
  | Text s => if truthy (Str s) then Some s else None
  | _ => None
  end.

(** White space and line terminators below 256: TAB, LF, VT, FF, CR,
    SPACE and NO-BREAK SPACE. *)
Definition is_white_space (c : ascii) : bool :=
  let n := N_of_ascii c in
  ((n =? 9) || (n =? 10) || (n =? 11) || (n =? 12) || (n =? 13)
   || (n =? 32) || (n =? 160))%N.

Fixpoint trimStart (s : string) : string :=
  match s with
  | EmptyString => EmptyString
  | String c r => if is_white_space c then trimStart r else s
  end.

Fixpoint trimEnd (s : string) : string :=
  match s with
  | EmptyString => EmptyString
  | String c r =>
      match trimEnd r with
      | EmptyString => if is_white_space c then EmptyString
                       else String c EmptyString
      | r' => String c r'
      end
  end.

(** [String.prototype.trim]. *)
Definition trim (s : string) : string := trimEnd (trimStart s).

(** [String.prototype.toLowerCase] on the code units below 256. *)
Definition lower_char (c : ascii) : ascii :=
  let n := N_of_ascii c in
  if ((65 <=? n) && (n <=? 90)
      || (192 <=? n) && (n <=? 222) && negb (n =? 215))%N
  then ascii_of_N (n + 32) else c.

Fixpoint toLowerCase (s : string) : string :=
  match s with
  | EmptyString => EmptyString
  | String c r => String (lower_char c) (toLowerCase r)
  end.

(** [hay.includes(needle)]. *)
Fixpoint includes (hay needle : string) : bool :=
  prefix needle hay
  || match hay with
     | EmptyString => false
     | String _ r => includes r needle
     end.

(** The value of a digit in the given radix. *)
Definition digit (radix : Z) (c : ascii) : option Z :=
  let n := Z.of_N (N_of_ascii c) in
  let d := if (48 <=? n) && (n <=? 57) then n - 48
           else if (97 <=? n) && (n <=? 122) then n - 87
           else if (65 <=? n) && (n <=? 90) then n - 55
           else radix in
  if d <? radix then Some d else None.

(** The longest prefix of digits, read in the radix; [None] when the
    prefix is empty. *)
Fixpoint digits (radix : Z) (acc : option Z) (s : string) : option Z :=
  match s with
  | EmptyString => acc
  | String c r =>
      match digit radix c with
      | None => acc
      | Some d =>
          digits radix
            (Some (match acc with None => d | Some a => a * radix + d end)) r
      end
  end.

(** [parseInt(s)], radix not given; [None] is NaN.  The result is the
    mathematical integer (the rounding to a double is left out). *)
Definition parseInt (s : string) : option Z :=
  let s1 := trimStart s in
  let '(sign, s2) :=
    match s1 with
    | String "-" r => (-1, r)
    | String "+" r => (1, r)
    | _ => (1, s1)
    end in
  let '(radix, s3) :=
    match s2 with
    | String "0" (String "x" r) => (16, r)
    | String "0" (String "X" r) => (16, r)
    | _ => (10, s2)
    end in
  option_map (Z.mul sign) (digits radix None s3).

(** [isNaN(parseInt(s))]. *)
Definition isNaN (n : option Z) : bool :=
  match n with None => true | Some _ => false end.

End Js.

(** What the handlers take from the runtime and from the engine without the
    repository defining it. *)
Record engine : Type := {
  (** [!isNaN(new Date(s).getTime())]: the string parses as a date. *)
  date_valid : string -> bool;
  (** The rowid a text bound to [WHERE id = ?] is equal to, if any (the
      INTEGER affinity of the column is applied to the text). *)
  rowid_of_text : string -> option Z
}.

(* ================================================================== *)
(** ** The table [items] and the SQL the handlers issue *)
(* ================================================================== *)

(** A row of [items]. [completed] is the INTEGER column as it is stored;
    [description] and [due_date] are [None] for NULL. *)
Module Item.
Record t : Type := mk {
  id : Z;
  name : string;
  description : option string;
  completed : Z;
  due_date : option string;
  created_at : Z;
  updated_at : Z
}.
End Item.

Module Sql.

(** The storage classes the sort keys have. NULL sorts before numbers,
    numbers before text. *)
Inductive value : Type :=
| VNull
| VInt (n : Z)
| VText (s : string).

(** The comparison of [ORDER BY]: numbers by value, text by [memcmp] (the
    BINARY collation, the default of a column declared without COLLATE). *)
Definition compare (a b : value) : comparison :=
  match a, b with
  | VNull, VNull => Eq
  | VNull, _ => Lt
  | _, VNull => Gt
  | VInt x, VInt y => Z.compare x y
  | VInt _, VText _ => Lt
  | VText _, VInt _ => Gt
  | VText x, VText y => String.compare x y
  end.

Inductive column : Type := due_date | name | created_at.

Inductive direction : Type := ASC | DESC.

(** The two forms of ordering term the handlers write. *)
Inductive expr : Type :=
| Col (c : column)
| IsNull (c : column).

(** An [ORDER BY] clause: its terms, leftmost first. *)
Definition clause : Type := list (expr * direction).

Definition column_value (c : column) (r : Item.t) : value :=
  match c with
  | due_date =>
      match Item.due_date r with None => VNull | Some d => VText d end
  | name => VText (Item.name r)
  | created_at => VInt (Item.created_at r)
  end.

Definition eval (e : expr) (r : Item.t) : value :=
  match e with
  | Col c => column_value c r
  | IsNull c =>
      match column_value c r with VNull => VInt 1 | _ => VInt 0 end
  end.

Definition directed (d : direction) (c : comparison) : comparison :=
  match d with ASC => c | DESC => CompOpp c end.

(** Rows are compared term by term; the first term that tells them apart
    decides. *)
Fixpoint compare_rows (cl : clause) (x y : Item.t) : comparison :=
  match cl with
  | [] => Eq
  | (e, d) :: cl' =>
      match directed d (compare (eval e x) (eval e y)) with
      | Eq => compare_rows cl' x y
      | c => c
      end
  end.

Definition row_leb (cl : clause) (x y : Item.t) : bool :=
  match compare_rows cl x y with Gt => false | _ => true end.

Fixpoint insert (cl : clause) (x : Item.t) (l : list Item.t) : list Item.t :=
  match l with
  | [] => [x]
  | y :: l' => if row_leb cl x y then x :: l else y :: insert cl x l'
  end.

(** [SELECT * FROM items ORDER BY cl] over the rows in rowid order. SQLite
    leaves the order of rows with equal keys open; the model keeps them in
    rowid order. *)
Definition order_by (cl : clause) (rows : list Item.t) : list Item.t :=
  fold_right (insert cl) [] rows.

(** The parameter bound to [WHERE id = ?]: the text of the URL, or the
    number [lastInsertRowid]. *)
Inductive param : Type :=
| PText (s : string)
| PInt (n : Z).

(** The statements of the handlers, as they are logged when they run. *)
Inductive stmt : Type :=
| SelectAll (cl : clause)
| SelectById (p : param)
| Insert
| Update (p : param)
| UpdateCompleted (p : param)
| Delete (p : param).

End Sql.

(** The database: the rows in rowid order, the sequence of AUTOINCREMENT
    (the largest rowid ever given) and the statements run so far, latest
    first. *)
Record db : Type := {
  rows : list Item.t;
  seq : Z;
  log : list Sql.stmt
}.

(** A computation on the database. *)
Definition db_op (A : Type) : Type := db -> A * db.

Definition ret {A} (a : A) : db_op A := fun st => (a, st).

Definition bind {A B} (m : db_op A) (k : A -> db_op B) : db_op B :=
  fun st => let '(a, st1) := m st in k a st1.

Notation "x <- m ;; k" := (bind m (fun x => k))
  (at level 61, m at next level, right associativity).

Definition run_stmt (s : Sql.stmt) : db_op unit :=
  fun st => (tt, {| rows := rows st; seq := seq st; log := s :: log st |}).

Definition set_rows (f : list Item.t -> list Item.t) : db_op unit :=
  fun st => (tt, {| rows := f (rows st); seq := seq st; log := log st |}).

Section Store.

Variable E : engine.

Definition rowid_of_param (p : Sql.param) : option Z :=
  match p with
  | Sql.PText s => rowid_of_text E s
  | Sql.PInt n => Some n
  end.

(** [id = ?] on a row. *)
Definition id_is (p : Sql.param) (r : Item.t) : bool :=
  match rowid_of_param p with
  | Some k => Item.id r =? k
  | None => false
  end.

(** [db.prepare('SELECT * FROM items ORDER BY ...').all()]. *)
Definition select_all (cl : Sql.clause) : db_op (list Item.t) :=
  _ <- run_stmt (Sql.SelectAll cl) ;;
  fun st => (Sql.order_by cl (rows st), st).

(** [db.prepare('SELECT * FROM items WHERE id = ?').get(p)]. *)
Definition select_by_id (p : Sql.param) : db_op (option Item.t) :=
  _ <- run_stmt (Sql.SelectById p) ;;
  fun st => (find (id_is p) (rows st), st).

(** [INSERT INTO items (name, description, completed, due_date) VALUES
    (?, ?, ?, ?)]: the row takes the next rowid and both timestamps take
    their default; returns [lastInsertRowid]. *)
Definition insert_row (now : Z) (name : string) (description : option string)
    (completed : Z) (due_date : option string) : db_op Z :=
  _ <- run_stmt Sql.Insert ;;
  fun st =>
    let k := seq st + 1 in
    (k, {| rows := rows st ++ [Item.mk k name description completed due_date
                                 now now];
           seq := k;
           log := log st |}).

(** [UPDATE items SET name = ?, description = ?, completed = ?,
    due_date = ?, updated_at = CURRENT_TIMESTAMP WHERE id = ?]. *)
Definition update_row (now : Z) (name : string) (description : option string)
    (completed : Z) (due_date : option string) (p : Sql.param) : db_op unit :=
  _ <- run_stmt (Sql.Update p) ;;
  set_rows (map (fun r =>
    if id_is p r
    then Item.mk (Item.id r) name description completed due_date
           (Item.created_at r) now
    else r)).

(** [UPDATE items SET completed = ?, updated_at = CURRENT_TIMESTAMP
    WHERE id = ?]. *)
Definition update_completed (now : Z) (completed : Z) (p : Sql.param)
    : db_op unit :=
  _ <- run_stmt (Sql.UpdateCompleted p) ;;
  set_rows (map (fun r =>
    if id_is p r
    then Item.mk (Item.id r) (Item.name r) (Item.description r) completed
           (Item.due_date r) (Item.created_at r) now
    else r)).

(** [DELETE FROM items WHERE id = ?]; returns [changes]. *)
Definition delete_row (p : Sql.param) : db_op Z :=
  _ <- run_stmt (Sql.Delete p) ;;
  fun st =>
    (Z.of_nat (List.length (filter (id_is p) (rows st))),
     {| rows := filter (fun r => negb (id_is p r)) (rows st);
        seq := seq st;
        log := log st |}).

End Store.

(* ================================================================== *)
(** ** The handlers *)
(* ================================================================== *)

(** The body of a POST or PUT request. *)
Module Body.
Record t : Type := mk {
  name : Js.value;
  description : Js.text;
  completed : Js.value;
  due_date : Js.text
}.
End Body.

(** The query string of [GET /api/items]. *)
Module Query.
Record t : Type := mk {
  sort : option string;
  order : option string;
  filter : option string;
  search : option string
}.
End Query.

(** What a handler passes to [res.json]. *)
Inductive payload : Type :=
| JError (error : string)
| JItem (r : Item.t)
| JItems (l : list Item.t)
| JDeleted (message : string) (id : option Z)
| JNothing.

(** [res.status(status).json(json)]. *)
Record response : Type := {
  status : Z;
  json : payload
}.

Definition reply (status : Z) (j : payload) : db_op response :=
  ret {| status := status; json := j |}.

(** [res.json(x)] when [x] is the result of [.get]; [undefined] when no row
    was found. *)
Definition item_json (r : option Item.t) : payload :=
  match r with Some r => JItem r | None => JNothing end.

(** The outcome of [validSorts[sort]]: a column for the three keys of the
    object, a member of [Object.prototype] for the keys every object
    inherits, [undefined] (here [None]) otherwise. *)
Inductive sort_field : Type :=
| Field (c : Sql.column)
| Inherited.

Definition object_prototype_keys : list string :=
  ["constructor"; "hasOwnProperty"; "isPrototypeOf"; "propertyIsEnumerable";
   "toLocaleString"; "toString"; "valueOf"; "__proto__";
   "__defineGetter__"; "__defineSetter__"; "__lookupGetter__";
   "__lookupSetter__"].

Definition validSorts (sort : option string) : option sort_field :=
  match sort with
  | None => None
  | Some k =>
      if (k =? "date")%string then Some (Field Sql.due_date)
      else if (k =? "name")%string then Some (Field Sql.name)
      else if (k =? "created")%string then Some (Field Sql.created_at)
      else if existsb (String.eqb k) object_prototype_keys then Some Inherited
      else None
  end.

(** [getSortClause]. [None] when the text built is not an ordering term
    (the sort field is a member of [Object.prototype]). *)
Definition getSortClause (sort order : option string) : option Sql.clause :=
  let sortField :=
    match validSorts sort with
    | Some f => f
    | None => Field Sql.created_at
    end in
  let sortOrder :=
    match order with
    | Some o => if (o =? "asc")%string then Sql.ASC else Sql.DESC
    | None => Sql.DESC
    end in
  match sortField with
  | Field Sql.due_date =>
      Some [(Sql.IsNull Sql.due_date, Sql.ASC); (Sql.Col Sql.due_date, sortOrder)]
  | Field c => Some [(Sql.Col c, sortOrder)]
  | Inherited => None
  end.

(** [applyFilters]. *)
Definition applyFilters (items : list Item.t) (filter search : option string)
    : list Item.t :=
  let filtered :=
    match filter with
    | Some f =>
        if (f =? "complete")%string
        then List.filter (fun item => Item.completed item =? 1) items
        else if (f =? "incomplete")%string
        then List.filter (fun item => Item.completed item =? 0) items
        else items
    | None => items
    end in
  match search with
  | Some s =>
      if Js.truthy (Js.Str s) && Js.truthy (Js.Str (Js.trim s))
      then
        let searchLower := Js.toLowerCase (Js.trim s) in
        List.filter (fun item =>
          let nameMatch :=
            Js.truthy (Js.Str (Item.name item))
            && Js.includes (Js.toLowerCase (Item.name item)) searchLower in
          let descMatch :=
            match Item.description item with
            | Some d =>
                Js.truthy (Js.Str d)
                && Js.includes (Js.toLowerCase d) searchLower
            | None => false
            end in
          nameMatch || descMatch) filtered
      else filtered
  | None => filtered
  end.

Section Handlers.

Variable E : engine.

(** [!id || isNaN(parseInt(id))]. *)
Definition invalid_id (id : string) : bool :=
  negb (Js.truthy (Js.Str id)) || Js.isNaN (Js.parseInt id).

(** [!name || typeof name !== 'string' || name.trim() === '']. *)
Definition name_missing (name : Js.value) : bool :=
  negb (Js.truthy name)
  || match Js.as_string name with
     | None => true
     | Some s => (Js.trim s =? "")%string
     end.

(** [name.trim()] once [name] is known to be a string. *)
Definition trimmed (name : Js.value) : string :=
  match Js.as_string name with
  | Some s => Js.trim s
  | None => ""
  end.

(** [due_date && due_date !== null] and [isNaN(new Date(due_date).getTime())]. *)
Definition due_date_invalid (due_date : Js.text) : bool :=
  match due_date with
  | Js.Text s => Js.truthy (Js.Str s) && negb (date_valid E s)
  | _ => false
  end.

(** [GET /api/items]. *)
Definition get_items (q : Query.t) : db_op response :=
  match getSortClause (Query.sort q) (Query.order q) with
  | Some sortClause =>
      items <- select_all sortClause ;;
      reply 200 (JItems (applyFilters items (Query.filter q) (Query.search q)))
  | None => reply 500 (JError "Failed to fetch items")
  end.

(** [GET /api/items/:id]. *)
Definition get_item (id : string) : db_op response :=
  if invalid_id id then reply 400 (JError "Valid item ID is required")
  else
    item <- select_by_id E (Sql.PText id) ;;
    match item with
    | None => reply 404 (JError "Item not found")
    | Some item => reply 200 (JItem item)
    end.

(** [POST /api/items]. *)
Definition post_item (now : Z) (body : Body.t) : db_op response :=
  let name := Body.name body in
  if name_missing name then reply 400 (JError "Item name is required")
  else if Z.of_nat (String.length (trimmed name)) >? 200
  then reply 400 (JError "Item name must not exceed 200 characters")
  else if due_date_invalid (Body.due_date body)
  then reply 400 (JError "Invalid due date format")
  else
    id <- insert_row now (trimmed name) (Js.or_null (Body.description body)) 0
            (Js.or_null (Body.due_date body)) ;;
    newItem <- select_by_id E (Sql.PInt id) ;;
    reply 201 (item_json newItem).

(** [PUT /api/items/:id]. *)
Definition put_item (now : Z) (id : string) (body : Body.t) : db_op response :=
  let name := Body.name body in
  if invalid_id id then reply 400 (JError "Valid item ID is required")
  else
    existingItem <- select_by_id E (Sql.PText id) ;;
    match existingItem with
    | None => reply 404 (JError "Item not found")
    | Some _ =>
        if name_missing name then reply 400 (JError "Item name is required")
        else if Z.of_nat (String.length (trimmed name)) >? 200
        then reply 400 (JError "Item name must not exceed 200 characters")
        else if due_date_invalid (Body.due_date body)
        then reply 400 (JError "Invalid due date format")
        else
          let completedValue :=
            if Js.strict_eq_true (Body.completed body)
               || Js.strict_eq_one (Body.completed body)
            then 1 else 0 in
          _ <- update_row E now (trimmed name)
                 (Js.or_null (Body.description body)) completedValue
                 (Js.or_null (Body.due_date body)) (Sql.PText id) ;;
          updatedItem <- select_by_id E (Sql.PText id) ;;
          reply 200 (item_json updatedItem)
    end.

(** [PATCH /api/items/:id]. *)
Definition patch_item (now : Z) (id : string) : db_op response :=
  if invalid_id id then reply 400 (JError "Valid item ID is required")
  else
    existingItem <- select_by_id E (Sql.PText id) ;;
    match existingItem with
    | None => reply 404 (JError "Item not found")
    | Some existingItem =>
        let newCompletedValue :=
          if Item.completed existingItem =? 1 then 0 else 1 in
        _ <- update_completed E now newCompletedValue (Sql.PText id) ;;
        updatedItem <- select_by_id E (Sql.PText id) ;;
        reply 200 (item_json updatedItem)
    end.

(** [DELETE /api/items/:id]. *)
Definition delete_item (id : string) : db_op response :=
  if invalid_id id then reply 400 (JError "Valid item ID is required")
  else
    existingItem <- select_by_id E (Sql.PText id) ;;
    match existingItem with
    | None => reply 404 (JError "Item not found")
    | Some _ =>
        changes <- delete_row E (Sql.PText id) ;;
        if changes >? 0
        then reply 200 (JDeleted "Item deleted successfully" (Js.parseInt id))
        else reply 404 (JError "Item not found")
    end.

(** A request with the time at which it is served. *)
Inductive request : Type :=
| GetItems (q : Query.t)
| GetItem (id : string)
| PostItem (body : Body.t)
| PutItem (id : string) (body : Body.t)
| PatchItem (id : string)
| DeleteItem (id : string).

Definition handle (now : Z) (r : request) : db_op response :=
  match r with
  | GetItems q => get_items q
  | GetItem id => get_item id
  | PostItem body => post_item now body
  | PutItem id body => put_item now id body
  | PatchItem id => patch_item now id
  | DeleteItem id => delete_item id
  end.

End Handlers.

(** The database when the server starts: the table is created and the three
    sample items are inserted, at time [now]; [due1] and [due3] are the two
    due dates, computed from the clock. *)
Definition empty_db : db := {| rows := []; seq := 0; log := [] |}.

Definition init_db (now : Z) (due1 due3 : string) : db :=
  snd ((_ <- insert_row now "Sample Task 1" (Some "This is a sample task") 0
              (Some due1) ;;
        _ <- insert_row now "Sample Task 2" (Some "Another sample task") 1
              None ;;
        insert_row now "Sample Task 3" (Some "Very important task") 0
          (Some due3)) empty_db).

(** The states the server goes through: it starts from [init_db] and serves
    one request after the other, the clock never going back. The index is
    the time of the last request served. *)
Inductive reachable (E : engine) : Z -> db -> Prop :=
| reach_init now due1 due3 : reachable E now (init_db now due1 due3)
| reach_step t st now r :
    reachable E t st -> t <= now ->
    reachable E now (snd (handle E now r st)).

(* ================================================================== *)
(** ** A sample runtime, for the examples *)
(* ================================================================== *)

Module Sample.

Definition is_digit (c : ascii) : bool :=
  let n := N_of_ascii c in ((48 <=? n) && (n <=? 57))%N.

(** [s] has the shape of [pattern], where ["d"] stands for a digit. *)
Fixpoint shaped (pattern s : string) : bool :=
  match pattern, s with
  | EmptyString, EmptyString => true
  | String p pattern', String c s' =>
      (if (p =? "d")%char then is_digit c else (p =? c)%char)
      && shaped pattern' s'
  | _, _ => false
  end.

Definition number_at (s : string) (start len : nat) : Z :=
  match Js.digits 10 None (substring start len s) with
  | Some n => n
  | None => 0
  end.

Definition between (lo n hi : Z) : bool := (lo <=? n) && (n <=? hi).

(** The timestamps [Date.prototype.toISOString] writes, as in
    ["2024-01-01T00:00:00.000Z"], with a day every month has.  Every
    engine parses these, and no engine parses the empty string or
    ["invalid-date"], which this function rejects with every other
    string. *)
Definition iso_timestamp (s : string) : bool :=
  shaped "dddd-dd-ddTdd:dd:dd.dddZ" s
  && between 1 (number_at s 5 2) 12
  && between 1 (number_at s 8 2) 28
  && between 0 (number_at s 11 2) 23
  && between 0 (number_at s 14 2) 59
  && between 0 (number_at s 17 2) 59.

(** A text made of decimal digits and nothing else is equal to the rowid
    it writes. *)
Definition decimal (s : string) : option Z :=
  if shaped (string_of_list_ascii
               (repeat "d"%char (String.length s))) s
  then Js.digits 10 None s
  else None.

Definition engine : engine :=
  {| date_valid := iso_timestamp; rowid_of_text := decimal |}.

(** The server started at time 1000, with the sample due dates. *)
Definition db0 : db :=
  init_db 1000 "2024-01-03T00:00:00.000Z" "2023-12-31T00:00:00.000Z".

(** The rows a request leaves, and its response. *)
Definition after (now : Z) (r : request) (st : db) : db :=
  snd (handle engine now r st).

Definition answer (now : Z) (r : request) (st : db) : response :=
  fst (handle engine now r st).

Definition named (n : string) : Body.t :=
  Body.mk (Js.Str n) Js.Absent Js.Undefined Js.Absent.

Definition due (n : string) (d : Js.text) : Body.t :=
  Body.mk (Js.Str n) Js.Absent Js.Undefined d.

Definition completing (c : Js.value) : Body.t :=
  Body.mk (Js.Str "x") Js.Absent c Js.Absent.

Definition described (d : string) : Body.t :=
  Body.mk (Js.Str "x") (Js.Text d) Js.Undefined Js.Absent.

Definition a200 : string := string_of_list_ascii (repeat "a"%char 200).

Definition a201 : string := string_of_list_ascii (repeat "a"%char 201).

(** The second sample item, as [db0] holds it. *)
Definition task2 : Item.t :=
  Item.mk 2 "Sample Task 2" (Some "Another sample task") 1 None 1000 1000.

Definition names (j : payload) : list string :=
  match j with
  | JItems l => map Item.name l
  | _ => []
  end.

Definition due_dates (j : payload) : list (option string) :=
  match j with
  | JItems l => map Item.due_date l
  | _ => []
  end.

Definition sorted_by (sort order : string) : request :=
  GetItems (Query.mk (Some sort) (Some order) None None).

End Sample.

(* ================================================================== *)
(** ** The vocabulary of the properties *)
(* ================================================================== *)

(** The responses of the error taxonomy. *)
Definition InvalidId : response :=
  {| status := 400; json := JError "Valid item ID is required" |}.

Definition NotFound : response :=
  {| status := 404; json := JError "Item not found" |}.

Definition NameRequired : response :=
  {| status := 400; json := JError "Item name is required" |}.

Definition NameTooLong : response :=
  {| status := 400;
     json := JError "Item name must not exceed 200 characters" |}.

Definition InvalidDueDate : response :=
  {| status := 400; json := JError "Invalid due date format" |}.

(** The database after a statement was logged. *)
Definition logged (s : Sql.stmt) (st : db) : db :=
  {| rows := rows st; seq := seq st; log := s :: log st |}.

(** ** Orders on rows *)

(** [x] may stand before [y] in a list sorted by name, bytes compared. *)
Definition name_order (d : Sql.direction) (x y : Item.t) : Prop :=
  match d with
  | Sql.ASC => String.leb (Item.name x) (Item.name y) = true
  | Sql.DESC => String.leb (Item.name y) (Item.name x) = true
  end.

(** [x] may stand before [y] in a list sorted by name, case ignored. *)
Definition name_order_ci (d : Sql.direction) (x y : Item.t) : Prop :=
  match d with
  | Sql.ASC =>
      String.leb (Js.toLowerCase (Item.name x))
        (Js.toLowerCase (Item.name y)) = true
  | Sql.DESC =>
      String.leb (Js.toLowerCase (Item.name y))
        (Js.toLowerCase (Item.name x)) = true
  end.



(** The [ORDER BY] relation as a proposition. *)
Definition row_le (cl : Sql.clause) (x y : Item.t) : Prop :=
  Sql.row_leb cl x y = true.

(** ** Invariants of the table *)

(** What holds of every row at time [t] when the sequence is [sq]. *)
Record row_ok (t sq : Z) (r : Item.t) : Prop := {
  id_given : 1 <= Item.id r <= sq;
  completed_flag : Item.completed r = 0 \/ Item.completed r = 1;
  created_first : Item.created_at r <= Item.updated_at r;
  updated_past : Item.updated_at r <= t
}.

Record invariant (t : Z) (st : db) : Prop := {
  seq_started : 0 <= seq st;
  ids_unique : NoDup (map Item.id (rows st));
  rows_ok : Forall (row_ok t (seq st)) (rows st)
}.

(** ** Names and bodies *)

(** The name is missing or blank. *)
Definition blank_name (v : Js.value) : Prop :=
  v = Js.Undefined \/ v = Js.Null
  \/ exists s, v = Js.Str s /\ Js.trim s = "".

(** The name is a string of [n] characters once trimmed, [n] not zero. *)
Definition name_of_length (v : Js.value) (n : nat) : Prop :=
  exists s, v = Js.Str s /\ Js.trim s <> "" /\ String.length (Js.trim s) = n.

(** A name the checks accept. *)
Definition good_name (v : Js.value) : Prop :=
  exists n, name_of_length v n /\ (n <= 200)%nat.

(** The due date is a string, not empty, that does not parse as a date. *)
Definition unparsable (E : engine) (d : Js.text) : Prop :=
  exists s, d = Js.Text s /\ s <> "" /\ date_valid E s = false.

(** The text of the URL denotes the id of the row. *)
Definition denotes (E : engine) (id : string) (r : Item.t) : Prop :=
  Js.parseInt id <> None /\ rowid_of_text E id = Some (Item.id r).


(** The row an update writes over [old]. *)
Definition updated (now : Z) (body : Body.t) (completed : Z) (old : Item.t)
    (s : string) : Item.t :=
  Item.mk (Item.id old) (Js.trim s) (Js.or_null (Body.description body))
    completed (Js.or_null (Body.due_date body)) (Item.created_at old) now.

(** The row a toggle writes over [old]. *)
Definition toggled (now : Z) (old : Item.t) : Item.t :=
  Item.mk (Item.id old) (Item.name old) (Item.description old)
    (if Item.completed old =? 1 then 0 else 1)
    (Item.due_date old) (Item.created_at old) now.

(** The row a create adds. *)
Definition created (now : Z) (body : Body.t) (k : Z) (s : string) : Item.t :=
  Item.mk k (Js.trim s) (Js.or_null (Body.description body)) 0
    (Js.or_null (Body.due_date body)) now now.

(** Two tables hold the same rows up to the columns an update or a toggle
    may write: ids and creation times agree row by row. *)
Definition same_creation (l l' : list Item.t) : Prop :=
  Forall2 (fun r r' => Item.id r' = Item.id r
                       /\ Item.created_at r' = Item.created_at r) l l'.

(* ================================================================== *)
(** ** Runs of the server, and the vocabulary of the list *)
(* ================================================================== *)

(** The requests served one after the other, each at its time. *)
Fixpoint serve (E : engine) (reqs : list (Z * request)) (st : db) : db :=
  match reqs with
  | [] => st
  | (now, r) :: reqs' => serve E reqs' (snd (handle E now r st))
  end.

(** The reply reports a failure: 400, 404 or 500. *)
Definition failed (r : response) : Prop := 400 <= status r.

(** [needle] is a substring of [hay]. *)
Definition occurs (needle hay : string) : Prop :=
  exists a b, hay = a ++ needle ++ b.

(** The row passes the completion filter. *)
Definition kept (filter : option string) (r : Item.t) : Prop :=
  (filter = Some "complete" -> Item.completed r = 1)
  /\ (filter = Some "incomplete" -> Item.completed r = 0).

(** The row passes the search: the search is absent or blank, or its term,
    trimmed and in lower case, is a substring of the name or of the
    description in lower case. *)
Definition searched (search : option string) (r : Item.t) : Prop :=
  match search with
  | None => True
  | Some s =>
      Js.trim s = ""
      \/ occurs (Js.toLowerCase (Js.trim s)) (Js.toLowerCase (Item.name r))
      \/ exists d,
           Item.description r = Some d
           /\ occurs (Js.toLowerCase (Js.trim s)) (Js.toLowerCase d)
  end.

(** [x] may stand before [y] in a list sorted by creation time. *)
Definition created_order (d : Sql.direction) (x y : Item.t) : Prop :=
  match d with
  | Sql.ASC => Item.created_at x <= Item.created_at y
  | Sql.DESC => Item.created_at y <= Item.created_at x
  end.

(** The sort names a column of [validSorts]. *)
Definition own_sort (sort : option string) : Prop :=
  sort = Some "date" \/ sort = Some "name" \/ sort = Some "created".

(** The sort names a member every object inherits. *)
Definition inherited_sort (sort : option string) : Prop :=
  exists k, sort = Some k /\ In k object_prototype_keys.

(** A name as the table holds it: not empty, trimmed, of 200 characters at
    most. *)
Definition tidy_name (n : string) : Prop :=
  n <> "" /\ Js.trim n = n /\ (String.length n <= 200)%nat.

(** The rows whose id is not [k]. *)
Definition others (k : Z) (l : list Item.t) : list Item.t :=
  List.filter (fun r => negb (Item.id r =? k)) l.

(* ================================================================== *)
(** ** The front end *)
(* ================================================================== *)

(** The dialog that creates and edits items ([ItemDialog]). *)
Module ItemDialog.

(** The state of the form. The due date is the [Date] of the form as
    [toISOString] writes it, [None] for [null]. *)
Record formData : Type := {
  name : string;
  description : string;
  due_date : option string
}.

(** [validate]: the error it sets on the name, [None] when it returns
    [true]. *)
Definition validate (f : formData) : option string :=
  if negb (Js.truthy (Js.Str (Js.trim (name f))))
  then Some "Item name is required"
  else if Z.of_nat (String.length (Js.trim (name f))) >? 200
  then Some "Item name must not exceed 200 characters"
  else None.

(** [handleSubmit]: what it passes to [onSave], [None] when it returns
    without saving. [item] is the item being edited, if any. *)
Definition handleSubmit (item : option Item.t) (f : formData)
    : option Body.t :=
  match validate f with
  | Some _ => None
  | None =>
      Some (Body.mk
              (Js.Str (Js.trim (name f)))
              (if Js.truthy (Js.Str (Js.trim (description f)))
               then Js.Text (Js.trim (description f)) else Js.NoText)
              (match item with
               | Some item => Js.Number (Item.completed item)
               | None => Js.Undefined
               end)
              (match due_date f with
               | Some iso => Js.Text iso
               | None => Js.NoText
               end))
  end.

End ItemDialog.

(** The hook that holds the items shown ([useItems]). Each operation is
    given here from the point where the response has arrived. *)
Module UseItems.

Record state : Type := {
  items : list Item.t;
  loading : bool;
  error : option string
}.

(** [response.ok]. *)
Definition ok (r : response) : bool :=
  (200 <=? status r) && (status r <=? 299).

(** [errorData.error || fallback]. *)
Definition message (j : payload) (fallback : string) : string :=
  match j with
  | JError e => if Js.truthy (Js.Str e) then e else fallback
  | _ => fallback
  end.

Definition failing (msg : string) (h : state) : state :=
  {| items := items h; loading := loading h; error := Some msg |}.

Definition with_items (l : list Item.t) (h : state) : state :=
  {| items := l; loading := loading h; error := error h |}.

(** [fetchItems]. [None] stands for a body that is not what the server
    sends for the status (it has no model). *)
Definition fetchItems (r : response) (h : state) : option state :=
  if ok r
  then match json r with
       | JItems data =>
           Some {| items := data; loading := false; error := None |}
       | _ => None
       end
  else Some {| items := items h; loading := false;
               error := Some "Failed to fetch items" |}.

(** [createItem]: the new item is put first. *)
Definition createItem (r : response) (h : state) : option state :=
  if ok r
  then match json r with
       | JItem newItem => Some (with_items (newItem :: items h) h)
       | _ => None
       end
  else match json r with
       | JNothing => None
       | j => Some (failing (message j "Failed to create item") h)
       end.

(** [updateItem]: the item with the id is replaced. *)
Definition updateItem (id : Z) (r : response) (h : state) : option state :=
  if ok r
  then match json r with
       | JItem updatedItem =>
           Some (with_items
                   (map (fun item => if Item.id item =? id
                                     then updatedItem else item) (items h))
                   h)
       | _ => None
       end
  else match json r with
       | JNothing => None
       | j => Some (failing (message j "Failed to update item") h)
       end.

(** [toggleComplete]. *)
Definition toggleComplete (id : Z) (r : response) (h : state)
    : option state :=
  if ok r
  then match json r with
       | JItem updatedItem =>
           Some (with_items
                   (map (fun item => if Item.id item =? id
                                     then updatedItem else item) (items h))
                   h)
       | _ => None
       end
  else Some (failing "Failed to toggle item completion" h).

(** [deleteItem]: the items with the id are dropped. *)
Definition deleteItem (id : Z) (r : response) (h : state) : state :=
  if ok r
  then with_items
         (List.filter (fun item => negb (Item.id item =? id)) (items h)) h
  else failing "Failed to delete item" h.

End UseItems.

(** The select of the sort ([FilterSort]). *)
Module FilterSort.

(** [s.split(sep)] for a separator of one character. *)
Fixpoint split (sep : ascii) (s : string) : list string :=
  match s with
  | EmptyString => [EmptyString]
  | String c r =>
      if (c =? sep)%char then EmptyString :: split sep r
      else match split sep r with
           | x :: l => String c x :: l
           | [] => [String c EmptyString]
           end
  end.

(** The value of the select: [`${sort}-${order}`]. *)
Definition value (sort order : string) : string :=
  sort ++ "-" ++ order.

(** [onChange]: the two arguments it passes to [onSortChange]; [None] is
    [undefined]. *)
Definition onChange (v : string) : option string * option string :=
  match split "-" v with
  | newSort :: newOrder :: _ => (Some newSort, Some newOrder)
  | [newSort] => (Some newSort, None)
  | [] => (None, None)
  end.

End FilterSort.

(** The list shown agrees with the table: the same rows, in some order. *)
Definition in_sync (h : UseItems.state) (st : db) : Prop :=
  Permutation (UseItems.items h) (rows st).

(** The text of the id in the URL is read as the id [k]. *)
Definition reads_as (E : engine) (id : string) (k : Z) : Prop :=
  Js.parseInt id <> None /\ rowid_of_text E id = Some k.

(** The string has no hyphen. *)
Definition hyphenless (s : string) : Prop :=
  forall a b, s <> a ++ String "-" b.

(* ================================================================== *)
(** ** Comparisons *)
(* ================================================================== *)

Section Comparisons.

Context {A : Type}.

(** A comparison that comes from a total preorder. *)
Record lawful (cmp : A -> A -> comparison) : Prop := {
  law_opp : forall x y, cmp y x = CompOpp (cmp x y);
  law_eq : forall x y z, cmp x y = Eq -> cmp x z = cmp y z;
  law_lt : forall x y z, cmp x y = Lt -> cmp y z = Lt -> cmp x z = Lt
}.

Definition not_gt (cmp : A -> A -> comparison) (x y : A) : Prop :=
  cmp x y <> Gt.

Lemma lawful_total cmp x y :
  lawful cmp -> not_gt cmp x y \/ not_gt cmp y x.
Proof.
  intros L. unfold not_gt. rewrite (law_opp _ L x y).
  destruct (cmp x y); simpl; auto; left + right; discriminate.
Qed.

Lemma lawful_trans cmp x y z :
  lawful cmp -> not_gt cmp x y -> not_gt cmp y z -> not_gt cmp x z.
Proof.
  intros L Hxy Hyz. unfold not_gt in *.
  destruct (cmp x y) eqn:Exy; try congruence.
  - rewrite (law_eq _ L _ _ z Exy). exact Hyz.
  - destruct (cmp y z) eqn:Eyz; try congruence.
    + assert (Ezy : cmp z y = Eq) by (rewrite (law_opp _ L y z), Eyz; reflexivity).
      assert (Ezx : cmp z x = Gt).
      { rewrite (law_eq _ L _ _ x Ezy), (law_opp _ L x y), Exy. reflexivity. }
      rewrite (law_opp _ L z x), Ezx. discriminate.
    + rewrite (law_lt _ L _ _ _ Exy Eyz). discriminate.
Qed.

(** The comparison read in the other direction. *)
Lemma lawful_opp cmp :
  lawful cmp -> lawful (fun x y => CompOpp (cmp x y)).
Proof.
  intros L. split.
  - intros x y. rewrite (law_opp _ L x y). reflexivity.
  - intros x y z H. f_equal. apply (law_eq _ L).
    destruct (cmp x y); simpl in H; congruence.
  - intros x y z Hxy Hyz.
    rewrite (law_opp _ L z x).
    assert (Hyx : cmp y x = Lt).
    { rewrite (law_opp _ L x y). destruct (cmp x y); simpl in *; congruence. }
    assert (Hzy : cmp z y = Lt).
    { rewrite (law_opp _ L y z). destruct (cmp y z); simpl in *; congruence. }
    rewrite (law_lt _ L _ _ _ Hzy Hyx). reflexivity.
Qed.

(** The lexicographic product. *)
Lemma lawful_lex cmp1 cmp2 :
  lawful cmp1 -> lawful cmp2 ->
  lawful (fun x y => match cmp1 x y with Eq => cmp2 x y | c => c end).
Proof.
  intros L1 L2. split.
  - intros x y. rewrite (law_opp _ L1 x y).
    destruct (cmp1 x y); simpl; auto. apply (law_opp _ L2).
  - intros x y z H.
    destruct (cmp1 x y) eqn:E1; try discriminate.
    rewrite (law_eq _ L1 _ _ z E1).
    destruct (cmp1 y z); auto. apply (law_eq _ L2). exact H.
  - intros x y z Hxy Hyz.
    destruct (cmp1 x y) eqn:E1; try discriminate.
    + rewrite (law_eq _ L1 _ _ z E1).
      destruct (cmp1 y z); try discriminate; auto.
      apply (law_lt _ L2 _ _ _ Hxy Hyz).
    + destruct (cmp1 y z) eqn:E2; try discriminate.
      * assert (Ezy : cmp1 z y = Eq)
          by (rewrite (law_opp _ L1 y z), E2; reflexivity).
        assert (Ezx : cmp1 z x = Gt).
        { rewrite (law_eq _ L1 _ _ x Ezy), (law_opp _ L1 x y), E1.
          reflexivity. }
        rewrite (law_opp _ L1 z x), Ezx. reflexivity.
      * rewrite (law_lt _ L1 _ _ _ E1 E2). reflexivity.
Qed.

End Comparisons.

(** The comparison of rows by a key. *)
Lemma lawful_key {A B : Type} (key : A -> B) (cmp : B -> B -> comparison) :
  lawful cmp -> lawful (fun x y => cmp (key x) (key y)).
Proof.
  intros L. split; intros.
  - apply (law_opp _ L).
  - apply (law_eq _ L). assumption.
  - eapply (law_lt _ L); eassumption.
Qed.

Lemma string_compare_lt_trans s1 :
  forall s2 s3,
    String.compare s1 s2 = Lt -> String.compare s2 s3 = Lt ->
    String.compare s1 s3 = Lt.
Proof.
  induction s1 as [|a s1 IH]; intros [|b s2] [|c s3]; simpl;
    try discriminate; auto.
  unfold Ascii.compare.
  destruct (N.compare_spec (N_of_ascii a) (N_of_ascii b)) as [Eab|Lab|Gab];
    try discriminate;
    destruct (N.compare_spec (N_of_ascii b) (N_of_ascii c)) as [Ebc|Lbc|Gbc];
    try discriminate; intros H1 H2.
  - rewrite Eab, Ebc, N.compare_refl. eauto.
  - rewrite Eab. apply N.compare_lt_iff in Lbc. rewrite Lbc. reflexivity.
  - rewrite <- Ebc. apply N.compare_lt_iff in Lab. rewrite Lab. reflexivity.
  - assert (L : (N_of_ascii a < N_of_ascii c)%N) by lia.
    apply N.compare_lt_iff in L. rewrite L. reflexivity.
Qed.

Lemma sql_compare_eq a b : Sql.compare a b = Eq -> a = b.
Proof.
  destruct a, b; simpl; try discriminate; auto; intros H.
  - apply Z.compare_eq in H. congruence.
  - apply String.compare_eq_iff in H. congruence.
Qed.

Lemma sql_compare_lawful : lawful Sql.compare.
Proof.
  split.
  - intros [|x|x] [|y|y]; simpl; auto.
    + apply Z.compare_antisym.
    + apply String.compare_antisym.
  - intros x y z H. apply sql_compare_eq in H. subst. reflexivity.
  - intros [|x|x] [|y|y] [|z|z]; simpl; try discriminate; auto.
    + rewrite !Z.compare_lt_iff. lia.
    + apply string_compare_lt_trans.
Qed.

Lemma directed_lawful {A} d (cmp : A -> A -> comparison) :
  lawful cmp -> lawful (fun x y => Sql.directed d (cmp x y)).
Proof.
  destruct d; simpl; intros L.
  - destruct L; split; auto.
  - apply lawful_opp. exact L.
Qed.

Lemma compare_rows_lawful cl : lawful (Sql.compare_rows cl).
Proof.
  induction cl as [|[e d] cl IH]; simpl.
  - split; auto; discriminate.
  - apply (lawful_lex
             (fun x y => Sql.directed d (Sql.compare (Sql.eval e x) (Sql.eval e y)))
             (Sql.compare_rows cl)); auto.
    apply directed_lawful.
    apply (lawful_key (Sql.eval e)). apply sql_compare_lawful.
Qed.

Lemma row_le_not_gt cl x y : row_le cl x y <-> not_gt (Sql.compare_rows cl) x y.
Proof.
  unfold row_le, Sql.row_leb, not_gt.
  destruct (Sql.compare_rows cl x y); split; congruence.
Qed.

Lemma row_le_total cl x y : row_le cl x y \/ row_le cl y x.
Proof.
  rewrite !row_le_not_gt. apply lawful_total, compare_rows_lawful.
Qed.

Lemma row_le_trans cl x y z : row_le cl x y -> row_le cl y z -> row_le cl x z.
Proof.
  rewrite !row_le_not_gt. apply lawful_trans, compare_rows_lawful.
Qed.

(* ================================================================== *)
(** ** ORDER BY *)
(* ================================================================== *)

Lemma insert_perm cl x l : Permutation (Sql.insert cl x l) (x :: l).
Proof.
  induction l as [|y l IH]; simpl; auto.
  destruct (Sql.row_leb cl x y); auto.
  rewrite IH. apply perm_swap.
Qed.

Lemma order_by_perm cl l : Permutation (Sql.order_by cl l) l.
Proof.
  unfold Sql.order_by.
  induction l as [|x l IH]; simpl; auto.
  rewrite insert_perm. auto.
Qed.

Lemma insert_sorted cl x l :
  StronglySorted (row_le cl) l -> StronglySorted (row_le cl) (Sql.insert cl x l).
Proof.
  induction 1 as [|y l S IH F]; simpl.
  - repeat constructor.
  - destruct (Sql.row_leb cl x y) eqn:Exy.
    + constructor; [constructor; assumption|].
      constructor; [exact Exy|].
      eapply Forall_impl; [|exact F].
      intros z Hyz. eapply row_le_trans; eauto.
    + constructor; [exact IH|].
      assert (Hyx : row_le cl y x).
      { destruct (row_le_total cl x y) as [H|H]; auto.
        unfold row_le in H. congruence. }
      eapply Permutation_Forall.
      * symmetry. apply insert_perm.
      * constructor; assumption.
Qed.

Lemma order_by_sorted cl l : StronglySorted (row_le cl) (Sql.order_by cl l).
Proof.
  unfold Sql.order_by.
  induction l as [|x l IH]; simpl.
  - constructor.
  - apply insert_sorted, IH.
Qed.

Lemma filter_sorted {A} (R : A -> A -> Prop) f l :
  StronglySorted R l -> StronglySorted R (List.filter f l).
Proof.
  induction 1 as [|x l S IH F]; simpl.
  - constructor.
  - destruct (f x); auto.
    constructor; auto.
    rewrite Forall_forall in *. intros y Hy.
    apply filter_In in Hy. apply F, Hy.
Qed.

Lemma sorted_weaken {A} (R R' : A -> A -> Prop) l :
  (forall x y, R x y -> R' x y) -> StronglySorted R l -> StronglySorted R' l.
Proof.
  intros HR. induction 1 as [|x l S IH F]; constructor; auto.
  eapply Forall_impl; [|exact F]. auto.
Qed.

Lemma filter_perm {A} (f : A -> bool) l l' :
  Permutation l l' -> Permutation (List.filter f l) (List.filter f l').
Proof.
  induction 1; simpl; auto.
  - destruct (f x); auto.
  - destruct (f x), (f y); auto. apply perm_swap.
  - etransitivity; eauto.
Qed.

(** [applyFilters] keeps what a sort established, and commutes with a
    reordering of the rows. *)
Lemma applyFilters_sorted R items filter search :
  StronglySorted R items -> StronglySorted R (applyFilters items filter search).
Proof.
  intros S. unfold applyFilters.
  assert (S1 : StronglySorted R
    match filter with
    | Some f =>
        if (f =? "complete")%string
        then List.filter (fun item => Item.completed item =? 1) items
        else if (f =? "incomplete")%string
        then List.filter (fun item => Item.completed item =? 0) items
        else items
    | None => items
    end).
  { destruct filter as [f|]; auto.
    destruct (f =? "complete")%string; [apply filter_sorted; auto|].
    destruct (f =? "incomplete")%string; [apply filter_sorted; auto|auto]. }
  destruct search as [s|]; auto.
  destruct (Js.truthy (Js.Str s) && Js.truthy (Js.Str (Js.trim s))); auto.
  apply filter_sorted; auto.
Qed.

Lemma applyFilters_perm items items' filter search :
  Permutation items items' ->
  Permutation (applyFilters items filter search)
    (applyFilters items' filter search).
Proof.
  intros P. unfold applyFilters.
  assert (P1 : Permutation
    match filter with
    | Some f =>
        if (f =? "complete")%string
        then List.filter (fun item => Item.completed item =? 1) items
        else if (f =? "incomplete")%string
        then List.filter (fun item => Item.completed item =? 0) items
        else items
    | None => items
    end
    match filter with
    | Some f =>
        if (f =? "complete")%string
        then List.filter (fun item => Item.completed item =? 1) items'
        else if (f =? "incomplete")%string
        then List.filter (fun item => Item.completed item =? 0) items'
        else items'
    | None => items'
    end).
  { destruct filter as [f|]; auto.
    destruct (f =? "complete")%string; [apply filter_perm; auto|].
    destruct (f =? "incomplete")%string; [apply filter_perm; auto|auto]. }
  destruct search as [s|]; auto.
  destruct (Js.truthy (Js.Str s) && Js.truthy (Js.Str (Js.trim s))); auto.
  apply filter_perm; auto.
Qed.

(** What [GET /api/items] answers once the clause is known: the rows that
    pass the filters, in the order of the clause; the database is read
    only. *)
Lemma get_items_clause q cl st :
  getSortClause (Query.sort q) (Query.order q) = Some cl ->
  get_items q st =
    ({| status := 200;
        json := JItems (applyFilters (Sql.order_by cl (rows st))
                          (Query.filter q) (Query.search q)) |},
     logged (Sql.SelectAll cl) st).
Proof.
  intros H. unfold get_items. rewrite H. reflexivity.
Qed.


Lemma getSortClause_name order :
  getSortClause (Some "name") order =
    Some [(Sql.Col Sql.name,
           match order with
           | Some o => if (o =? "asc")%string then Sql.ASC else Sql.DESC
           | None => Sql.DESC
           end)].
Proof. reflexivity. Qed.



Lemma name_clause_order d x y :
  row_le [(Sql.Col Sql.name, d)] x y -> name_order d x y.
Proof.
  unfold row_le, Sql.row_leb, name_order. simpl.
  destruct d; simpl; intros H.
  - unfold String.leb.
    destruct (String.compare (Item.name x) (Item.name y)); congruence.
  - unfold String.leb. rewrite String.compare_antisym.
    destruct (String.compare (Item.name x) (Item.name y)); simpl in *;
      congruence.
Qed.

(** A list sorted by name is sorted by the bytes of the names, capitals
    before small letters. *)
Lemma get_items_by_name q st :
  Query.sort q = Some "name" ->
  exists l,
    fst (get_items q st) = {| status := 200; json := JItems l |}
    /\ Permutation l
         (applyFilters (rows st) (Query.filter q) (Query.search q))
    /\ (Query.order q = Some "asc" -> StronglySorted (name_order Sql.ASC) l)
    /\ (Query.order q = Some "desc" -> StronglySorted (name_order Sql.DESC) l).
Proof.
  intros Hs.
  pose proof (getSortClause_name (Query.order q)) as Hc.
  rewrite <- Hs in Hc.
  eexists. rewrite (get_items_clause _ _ _ Hc). simpl.
  split; [reflexivity|]. split; [apply applyFilters_perm, order_by_perm|].
  split; intros Ho; rewrite Ho; simpl; apply applyFilters_sorted;
    (eapply sorted_weaken; [apply name_clause_order|apply order_by_sorted]).
Qed.

Example get_items_by_name_sample :
  Sample.names
    (json (Sample.answer 1004 (Sample.sorted_by "name" "asc")
       (Sample.after 1003 (PostItem (Sample.named "c"))
       (Sample.after 1002 (PostItem (Sample.named "A"))
       (Sample.after 1001 (PostItem (Sample.named "b"))
       (Sample.after 1000 (DeleteItem "3")
       (Sample.after 1000 (DeleteItem "2")
       (Sample.after 1000 (DeleteItem "1") Sample.db0))))))))
  = ["A"; "b"; "c"].
Proof. reflexivity. Qed.

(** C1. The list sorted by name does not ignore case: the server holding
    the sample items, an item named "a" and an item named "B", the
    ascending list has "B" first and "a" last, although "a" is before "B"
    when case is ignored; the list is not sorted by the names in lower
    case. *)
Theorem name_sort_is_case_sensitive :
  exists l,
    Sample.answer 1003 (Sample.sorted_by "name" "asc")
      (Sample.after 1002 (PostItem (Sample.named "B"))
      (Sample.after 1001 (PostItem (Sample.named "a")) Sample.db0))
    = {| status := 200; json := JItems l |}
    /\ map Item.name l
       = ["B"; "Sample Task 1"; "Sample Task 2"; "Sample Task 3"; "a"]
    /\ String.ltb (Js.toLowerCase "a") (Js.toLowerCase "B") = true
    /\ ~ StronglySorted (name_order_ci Sql.ASC) l.
Proof.
  eexists. split; [reflexivity|]. split; [reflexivity|].
  split; [reflexivity|].
  intros S. apply StronglySorted_inv in S. destruct S as [_ F].
  rewrite Forall_forall in F.
  specialize (F (Item.mk 4 "a" None 0 None 1001 1001)).
  unfold name_order_ci in F. simpl in F.
  assert (H : String.leb "b" "a" = true) by (apply F; tauto).
  vm_compute in H. discriminate H.
Qed.



Example get_items_by_date_sample :
  let st :=
    Sample.after 1003 (PostItem (Sample.due "c" (Js.Text "2024-06-01T00:00:00.000Z")))
   (Sample.after 1002 (PostItem (Sample.due "b" Js.NoText))
   (Sample.after 1001 (PostItem (Sample.due "a" (Js.Text "2024-01-01T00:00:00.000Z")))
   (Sample.after 1000 (DeleteItem "3")
   (Sample.after 1000 (DeleteItem "2")
   (Sample.after 1000 (DeleteItem "1") Sample.db0))))) in
  Sample.due_dates (json (Sample.answer 1004 (Sample.sorted_by "date" "asc") st))
  = [Some "2024-01-01T00:00:00.000Z"; Some "2024-06-01T00:00:00.000Z"; None]
  /\ Sample.due_dates (json (Sample.answer 1004 (Sample.sorted_by "date" "desc") st))
  = [Some "2024-06-01T00:00:00.000Z"; Some "2024-01-01T00:00:00.000Z"; None].
Proof. split; reflexivity. Qed.

(* ================================================================== *)
(** ** The checks of the handlers *)
(* ================================================================== *)

Lemma invalid_id_parseInt id : invalid_id id = Js.isNaN (Js.parseInt id).
Proof.
  unfold invalid_id. destruct id as [|c id]; reflexivity.
Qed.

Lemma invalid_id_true id : Js.parseInt id = None -> invalid_id id = true.
Proof. rewrite invalid_id_parseInt. intros ->. reflexivity. Qed.

Lemma invalid_id_false id n : Js.parseInt id = Some n -> invalid_id id = false.
Proof. rewrite invalid_id_parseInt. intros ->. reflexivity. Qed.

Lemma name_missing_str s : name_missing (Js.Str s) = (Js.trim s =? "")%string.
Proof. destruct s; reflexivity. Qed.

Lemma name_missing_blank v : blank_name v -> name_missing v = true.
Proof.
  intros [->|[->|[s [-> H]]]]; try reflexivity.
  rewrite name_missing_str, H. reflexivity.
Qed.

Lemma name_of_length_checks v n :
  name_of_length v n ->
  name_missing v = false
  /\ (Z.of_nat (String.length (trimmed v)) >? 200) = negb (n <=? 200)%nat.
Proof.
  intros [s [-> [Hne Hlen]]]. split.
  - rewrite name_missing_str. apply String.eqb_neq. exact Hne.
  - unfold trimmed. cbn [Js.as_string]. rewrite Hlen.
    destruct (Nat.leb_spec n 200); cbn [negb]; lia.
Qed.

Lemma good_name_checks v :
  good_name v ->
  name_missing v = false
  /\ (Z.of_nat (String.length (trimmed v)) >? 200) = false.
Proof.
  intros [n [Hn Hle]]. destruct (name_of_length_checks _ _ Hn) as [H1 H2].
  split; auto. rewrite H2. apply Nat.leb_le in Hle. rewrite Hle. reflexivity.
Qed.


Lemma due_date_invalid_text E s :
  s <> "" -> date_valid E s = false -> due_date_invalid E (Js.Text s) = true.
Proof.
  intros Hs Hd. unfold due_date_invalid. simpl. rewrite Hd.
  apply String.eqb_neq in Hs. rewrite Hs. reflexivity.
Qed.

Lemma find_map_same {A} (f : A -> bool) (g : A -> A) l :
  (forall x, f (g x) = f x) -> find f (map g l) = option_map g (find f l).
Proof.
  intros H. induction l as [|x l IH]; simpl; auto.
  rewrite H. destruct (f x); auto.
Qed.

Lemma find_last_only {A} (f : A -> bool) l x :
  Forall (fun y => f y = false) l -> f x = true -> find f (l ++ [x]) = Some x.
Proof.
  induction 1 as [|y l Hy F IH]; simpl; intros Hx.
  - rewrite Hx. reflexivity.
  - rewrite Hy. auto.
Qed.

Lemma get_item_cases E id st :
  get_item E id st =
    if invalid_id id then (InvalidId, st)
    else
      (match find (id_is E (Sql.PText id)) (rows st) with
       | Some item => {| status := 200; json := JItem item |}
       | None => NotFound
       end, logged (Sql.SelectById (Sql.PText id)) st).
Proof.
  unfold get_item. destruct (invalid_id id); [reflexivity|].
  unfold bind, select_by_id, run_stmt, bind, logged. simpl.
  destruct (find _ _); reflexivity.
Qed.

Lemma post_item_cases E now body st :
  post_item E now body st =
    if name_missing (Body.name body) then (NameRequired, st)
    else if Z.of_nat (String.length (trimmed (Body.name body))) >? 200
    then (NameTooLong, st)
    else if due_date_invalid E (Body.due_date body) then (InvalidDueDate, st)
    else
      let k := seq st + 1 in
      let new :=
        Item.mk k (trimmed (Body.name body))
          (Js.or_null (Body.description body)) 0
          (Js.or_null (Body.due_date body)) now now in
      ({| status := 201;
          json := item_json (find (fun r => Item.id r =? k)
                               (rows st ++ [new])) |},
       {| rows := rows st ++ [new];
          seq := k;
          log := Sql.SelectById (Sql.PInt k) :: Sql.Insert :: log st |}).
Proof.
  unfold post_item.
  destruct (name_missing _); [reflexivity|].
  destruct (_ >? 200); [reflexivity|].
  destruct (due_date_invalid _ _); reflexivity.
Qed.

Lemma put_item_cases E now id body st :
  put_item E now id body st =
    if invalid_id id then (InvalidId, st)
    else
      match find (id_is E (Sql.PText id)) (rows st) with
      | None => (NotFound, logged (Sql.SelectById (Sql.PText id)) st)
      | Some old =>
          if name_missing (Body.name body)
          then (NameRequired, logged (Sql.SelectById (Sql.PText id)) st)
          else if Z.of_nat (String.length (trimmed (Body.name body))) >? 200
          then (NameTooLong, logged (Sql.SelectById (Sql.PText id)) st)
          else if due_date_invalid E (Body.due_date body)
          then (InvalidDueDate, logged (Sql.SelectById (Sql.PText id)) st)
          else
            let write r :=
              Item.mk (Item.id r) (trimmed (Body.name body))
                (Js.or_null (Body.description body))
                (if Js.strict_eq_true (Body.completed body)
                    || Js.strict_eq_one (Body.completed body)
                 then 1 else 0)
                (Js.or_null (Body.due_date body)) (Item.created_at r) now in
            ({| status := 200; json := JItem (write old) |},
             {| rows := map (fun r => if id_is E (Sql.PText id) r
                                      then write r else r) (rows st);
                seq := seq st;
                log := Sql.SelectById (Sql.PText id)
                       :: Sql.Update (Sql.PText id)
                       :: Sql.SelectById (Sql.PText id) :: log st |})
      end.
Proof.
  unfold put_item. destruct (invalid_id id); [reflexivity|].
  unfold bind at 1. unfold select_by_id, bind, run_stmt. simpl.
  destruct (find (id_is E (Sql.PText id)) (rows st)) as [old|] eqn:Hf;
    [|reflexivity].
  destruct (name_missing _); [reflexivity|].
  destruct (_ >? 200); [reflexivity|].
  destruct (due_date_invalid _ _); [reflexivity|].
  unfold update_row, set_rows, bind, run_stmt, reply, ret. simpl.
  rewrite find_map_same.
  - rewrite Hf. simpl.
    apply find_some in Hf. destruct Hf as [_ Hf]. rewrite Hf. reflexivity.
  - intros r. unfold id_is. destruct (rowid_of_param E (Sql.PText id)); auto.
    destruct (Item.id r =? z) eqn:Hr; simpl; rewrite Hr; reflexivity.
Qed.

Lemma patch_item_cases E now id st :
  patch_item E now id st =
    if invalid_id id then (InvalidId, st)
    else
      match find (id_is E (Sql.PText id)) (rows st) with
      | None => (NotFound, logged (Sql.SelectById (Sql.PText id)) st)
      | Some old =>
          let write r :=
            Item.mk (Item.id r) (Item.name r) (Item.description r)
              (if Item.completed old =? 1 then 0 else 1)
              (Item.due_date r) (Item.created_at r) now in
          ({| status := 200; json := JItem (write old) |},
           {| rows := map (fun r => if id_is E (Sql.PText id) r
                                    then write r else r) (rows st);
              seq := seq st;
              log := Sql.SelectById (Sql.PText id)
                     :: Sql.UpdateCompleted (Sql.PText id)
                     :: Sql.SelectById (Sql.PText id) :: log st |})
      end.
Proof.
  unfold patch_item. destruct (invalid_id id); [reflexivity|].
  unfold bind at 1. unfold select_by_id, bind, run_stmt. simpl.
  destruct (find (id_is E (Sql.PText id)) (rows st)) as [old|] eqn:Hf;
    [|reflexivity].
  unfold update_completed, set_rows, bind, run_stmt, reply, ret. simpl.
  rewrite find_map_same.
  - rewrite Hf. simpl.
    apply find_some in Hf. destruct Hf as [_ Hf]. rewrite Hf. reflexivity.
  - intros r. unfold id_is. destruct (rowid_of_param E (Sql.PText id)); auto.
    destruct (Item.id r =? z) eqn:Hr; simpl; rewrite Hr; reflexivity.
Qed.

Lemma delete_item_cases E id st :
  delete_item E id st =
    if invalid_id id then (InvalidId, st)
    else
      match find (id_is E (Sql.PText id)) (rows st) with
      | None => (NotFound, logged (Sql.SelectById (Sql.PText id)) st)
      | Some _ =>
          ({| status := 200;
              json := JDeleted "Item deleted successfully" (Js.parseInt id) |},
           {| rows := List.filter (fun r => negb (id_is E (Sql.PText id) r))
                        (rows st);
              seq := seq st;
              log := Sql.Delete (Sql.PText id)
                     :: Sql.SelectById (Sql.PText id) :: log st |})
      end.
Proof.
  unfold delete_item. destruct (invalid_id id); [reflexivity|].
  unfold bind at 1. unfold select_by_id, bind, run_stmt. simpl.
  destruct (find (id_is E (Sql.PText id)) (rows st)) as [old|] eqn:Hf;
    [|reflexivity].
  unfold delete_row, bind, run_stmt, reply, ret. simpl.
  apply find_some in Hf. destruct Hf as [Hin Hf].
  assert (Hpos : (Z.of_nat (List.length (List.filter (id_is E (Sql.PText id))
                                           (rows st))) >? 0) = true).
  { apply Z.gtb_lt.
    assert (Hin' : In old (List.filter (id_is E (Sql.PText id)) (rows st)))
      by (apply filter_In; auto).
    destruct (List.filter _ _); [contradiction|]. simpl List.length. lia. }
  rewrite Hpos. reflexivity.
Qed.

Lemma due_date_invalid_iff E d :
  due_date_invalid E d = true <-> unparsable E d.
Proof.
  unfold unparsable. split.
  - destruct d as [| |s]; simpl; try discriminate.
    intros H. apply andb_true_iff in H. destruct H as [H1 H2].
    exists s. split; [reflexivity|]. split.
    + intros ->. discriminate.
    + destruct (date_valid E s); simpl in *; congruence.
  - intros [s [-> [Hs Hd]]]. apply due_date_invalid_text; auto.
Qed.

(* ================================================================== *)
(** ** The invariant of the table *)
(* ================================================================== *)

Lemma row_ok_later t t' sq sq' r :
  t <= t' -> sq <= sq' -> row_ok t sq r -> row_ok t' sq' r.
Proof. intros Ht Hs [H1 H2 H3 H4]. split; auto; lia. Qed.

Lemma invariant_later t t' st : t <= t' -> invariant t st -> invariant t' st.
Proof.
  intros Ht [H0 H1 H2]. split; auto.
  eapply Forall_impl; [|exact H2].
  intros r. apply row_ok_later; auto; lia.
Qed.

Lemma invariant_logged t s st : invariant t st -> invariant t (logged s st).
Proof. intros [H0 H1 H2]. split; auto. Qed.

Lemma invariant_init now due1 due3 : invariant now (init_db now due1 due3).
Proof.
  split; simpl.
  - lia.
  - repeat constructor; simpl; intuition discriminate.
  - repeat constructor; simpl; auto; lia.
Qed.

Lemma map_id_write (p : Item.t -> bool) (w : Item.t -> Item.t) l :
  (forall r, Item.id (w r) = Item.id r) ->
  map Item.id (map (fun r => if p r then w r else r) l) = map Item.id l.
Proof.
  intros H. rewrite map_map. apply map_ext.
  intros r. destruct (p r); auto.
Qed.

Lemma NoDup_map_filter {A B} (f : A -> B) (p : A -> bool) l :
  NoDup (map f l) -> NoDup (map f (List.filter p l)).
Proof.
  induction l as [|x l IH]; simpl; auto.
  intros H. inversion H as [|? ? Hx Hl]; subst.
  destruct (p x); simpl; auto.
  constructor; auto.
  intros Hin. apply Hx. apply in_map_iff in Hin.
  destruct Hin as [y [Hy Hin]]. apply filter_In in Hin.
  apply in_map_iff. exists y. tauto.
Qed.

Lemma invariant_write t now st (p : Item.t -> bool) (w : Item.t -> Item.t) lg :
  t <= now -> invariant t st ->
  (forall r, Item.id (w r) = Item.id r) ->
  (forall r, Item.created_at (w r) = Item.created_at r) ->
  (forall r, Item.updated_at (w r) = now) ->
  (forall r, Item.completed (w r) = 0 \/ Item.completed (w r) = 1) ->
  invariant now {| rows := map (fun r => if p r then w r else r) (rows st);
                   seq := seq st; log := lg |}.
Proof.
  intros Ht [H0 H1 H2] Hid Hc Hu Hf. split; simpl; auto.
  - rewrite map_id_write; auto.
  - rewrite Forall_map. eapply Forall_impl; [|exact H2].
    intros r [R1 R2 R3 R4]. destruct (p r).
    + split; rewrite ?Hid, ?Hc, ?Hu; auto; lia.
    + split; auto; lia.
Qed.

Lemma ids_not_next st t :
  invariant t st ->
  Forall (fun r => (Item.id r =? seq st + 1) = false) (rows st).
Proof.
  intros [_ _ H]. eapply Forall_impl; [|exact H].
  intros r [R _ _ _]. apply Z.eqb_neq. lia.
Qed.

Lemma invariant_add t now st r lg :
  t <= now -> invariant t st ->
  Item.id r = seq st + 1 ->
  Item.completed r = 0 ->
  Item.created_at r = now -> Item.updated_at r = now ->
  invariant now {| rows := rows st ++ [r]; seq := seq st + 1; log := lg |}.
Proof.
  intros Ht I Hid Hc Hcr Hu.
  pose proof (ids_not_next _ _ I) as Hn.
  destruct I as [H0 H1 H2]. split; simpl.
  - lia.
  - rewrite map_app. simpl.
    apply NoDup_app; auto.
    + repeat constructor. simpl. tauto.
    + intros x Hx [Hy|[]]. subst x.
      apply in_map_iff in Hx. destruct Hx as [y [Hy Hin]].
      rewrite Forall_forall in Hn. apply Hn in Hin.
      apply Z.eqb_neq in Hin. congruence.
  - apply Forall_app. split.
    + eapply Forall_impl; [|exact H2].
      intros y. apply row_ok_later; lia.
    + repeat constructor; rewrite ?Hid, ?Hc, ?Hcr, ?Hu; auto; lia.
Qed.

Lemma invariant_handle E t now r st :
  t <= now -> invariant t st -> invariant now (snd (handle E now r st)).
Proof.
  intros Ht I.
  pose proof (invariant_later _ _ _ Ht I) as I'.
  destruct r as [q|id|body|id body|id|id]; simpl.
  - unfold get_items.
    destruct (getSortClause _ _); simpl; auto.
    apply invariant_logged with (s := Sql.SelectAll c). exact I'.
  - rewrite get_item_cases. destruct (invalid_id id); simpl; auto.
    apply invariant_logged. exact I'.
  - rewrite post_item_cases.
    destruct (name_missing _); simpl; auto.
    destruct (_ >? 200); simpl; auto.
    destruct (due_date_invalid _ _); simpl; auto.
    eapply invariant_add; eauto.
  - rewrite put_item_cases. destruct (invalid_id id); simpl; auto.
    destruct (find _ _); [|apply invariant_logged; exact I'].
    destruct (name_missing _); [apply invariant_logged; exact I'|].
    destruct (_ >? 200); [apply invariant_logged; exact I'|].
    destruct (due_date_invalid _ _); [apply invariant_logged; exact I'|].
    simpl. eapply invariant_write; eauto.
    intros r. simpl. destruct (_ || _); auto.
  - rewrite patch_item_cases. destruct (invalid_id id); simpl; auto.
    destruct (find _ _) as [old|]; [|apply invariant_logged; exact I'].
    simpl. eapply invariant_write; eauto.
    intros r. simpl. destruct (_ =? 1); auto.
  - rewrite delete_item_cases. destruct (invalid_id id); simpl; auto.
    destruct (find _ _); [|apply invariant_logged; exact I'].
    destruct I' as [H0 H1 H2]. split; simpl; auto.
    + apply NoDup_map_filter; auto.
    + rewrite Forall_forall in *. intros r Hr.
      apply filter_In in Hr. apply H2, Hr.
Qed.

Lemma reachable_invariant E t st : reachable E t st -> invariant t st.
Proof.
  induction 1.
  - apply invariant_init.
  - eapply invariant_handle; eauto.
Qed.

(** With unique ids, the lookup by id finds the row that has the id. *)
Lemma find_by_id l r :
  NoDup (map Item.id l) -> In r l ->
  find (fun x => Item.id x =? Item.id r) l = Some r.
Proof.
  induction l as [|x l IH]; simpl; [tauto|].
  intros H [Hx|Hin]; inversion H as [|? ? Hn Hl]; subst.
  - rewrite Z.eqb_refl. reflexivity.
  - destruct (Item.id x =? Item.id r) eqn:Hid; auto.
    apply Z.eqb_eq in Hid. exfalso. apply Hn. rewrite Hid.
    apply in_map. exact Hin.
Qed.

Lemma find_denoted E t st id r :
  invariant t st -> In r (rows st) -> denotes E id r ->
  invalid_id id = false /\ find (id_is E (Sql.PText id)) (rows st) = Some r.
Proof.
  intros [_ Hu _] Hin [Hp Hr]. split.
  - destruct (Js.parseInt id) eqn:Hpi; [|congruence].
    eapply invalid_id_false; eauto.
  - unfold id_is. simpl. rewrite Hr. apply find_by_id; auto.
Qed.

(* ================================================================== *)
(** ** What a successful write returns *)
(* ================================================================== *)

Lemma name_checked v :
  name_missing v = false -> exists s, v = Js.Str s /\ trimmed v = Js.trim s.
Proof.
  destruct v as [| |b|n|s]; simpl; try discriminate.
  - destruct b; discriminate.
  - unfold name_missing. simpl. rewrite orb_true_r. discriminate.
  - intros _. exists s. auto.
Qed.

Lemma post_item_created E t st now body :
  invariant t st ->
  status (fst (post_item E now body st)) = 201 ->
  exists s,
    Body.name body = Js.Str s
    /\ post_item E now body st =
         ({| status := 201;
             json := JItem (created now body (seq st + 1) s) |},
          {| rows := rows st ++ [created now body (seq st + 1) s];
             seq := seq st + 1;
             log := Sql.SelectById (Sql.PInt (seq st + 1))
                    :: Sql.Insert :: log st |}).
Proof.
  intros I. rewrite post_item_cases.
  destruct (name_missing _) eqn:Hn; [discriminate|].
  destruct (_ >? 200); [discriminate|].
  destruct (due_date_invalid _ _); [discriminate|].
  intros _. destruct (name_checked _ Hn) as [s [Hs Ht]].
  exists s. split; auto. cbv zeta. rewrite Ht.
  fold (created now body (seq st + 1) s).
  rewrite find_last_only.
  - reflexivity.
  - eapply ids_not_next; eauto.
  - simpl. apply Z.eqb_refl.
Qed.

Lemma put_item_updated E now id body st :
  status (fst (put_item E now id body st)) = 200 ->
  exists old s c,
    find (id_is E (Sql.PText id)) (rows st) = Some old
    /\ Body.name body = Js.Str s
    /\ c = (if Js.strict_eq_true (Body.completed body)
               || Js.strict_eq_one (Body.completed body)
            then 1 else 0)
    /\ put_item E now id body st =
         ({| status := 200; json := JItem (updated now body c old s) |},
          {| rows := map (fun r => if id_is E (Sql.PText id) r
                                   then updated now body c r s else r)
                       (rows st);
             seq := seq st;
             log := Sql.SelectById (Sql.PText id)
                    :: Sql.Update (Sql.PText id)
                    :: Sql.SelectById (Sql.PText id) :: log st |}).
Proof.
  rewrite put_item_cases.
  destruct (invalid_id id); [discriminate|].
  destruct (find _ _) as [old|] eqn:Hf; [|discriminate].
  destruct (name_missing _) eqn:Hn; [discriminate|].
  destruct (_ >? 200); [discriminate|].
  destruct (due_date_invalid _ _); [discriminate|].
  intros _. destruct (name_checked _ Hn) as [s [Hs Ht]].
  exists old, s. eexists. repeat split; eauto.
  cbv zeta. rewrite Ht. reflexivity.
Qed.

Lemma patch_item_toggled E now id st old :
  invalid_id id = false ->
  find (id_is E (Sql.PText id)) (rows st) = Some old ->
  patch_item E now id st =
    ({| status := 200; json := JItem (toggled now old) |},
     {| rows := map (fun r => if id_is E (Sql.PText id) r
                              then Item.mk (Item.id r) (Item.name r)
                                     (Item.description r)
                                     (if Item.completed old =? 1 then 0 else 1)
                                     (Item.due_date r) (Item.created_at r) now
                              else r) (rows st);
        seq := seq st;
        log := Sql.SelectById (Sql.PText id)
               :: Sql.UpdateCompleted (Sql.PText id)
               :: Sql.SelectById (Sql.PText id) :: log st |}).
Proof.
  intros Hi Hf. rewrite patch_item_cases, Hi, Hf. reflexivity.
Qed.

Lemma in_written {A} (p : A -> bool) (w : A -> A) l x :
  In x l -> p x = true -> In (w x) (map (fun r => if p r then w r else r) l).
Proof.
  intros Hin Hp. apply in_map_iff. exists x. rewrite Hp. auto.
Qed.

Lemma same_creation_write (p : Item.t -> bool) (w : Item.t -> Item.t) l :
  (forall r, Item.id (w r) = Item.id r) ->
  (forall r, Item.created_at (w r) = Item.created_at r) ->
  same_creation l (map (fun r => if p r then w r else r) l).
Proof.
  intros Hid Hc. unfold same_creation.
  induction l as [|x l IH]; simpl; constructor; auto.
  destruct (p x); auto.
Qed.

Lemma same_creation_refl l : same_creation l l.
Proof. induction l; constructor; auto. Qed.

(* ================================================================== *)
(** ** The properties of the handlers *)
(* ================================================================== *)

(** C3. An id that [parseInt] does not read as a number is answered
    "Valid item ID is required" (400) by the four handlers that take an id,
    and no statement has run: the database, log included, is as before.
    An id that [parseInt] reads reaches the lookup, the first statement
    that runs: reading an item answers the row found, or "Item not found"
    (404) when there is none; update, toggle and delete answer "Item not
    found" when there is none and never "Valid item ID is required". *)
Theorem invalid_id_rejected_before_lookup E now id body st :
  (Js.parseInt id = None ->
     get_item E id st = (InvalidId, st)
     /\ put_item E now id body st = (InvalidId, st)
     /\ patch_item E now id st = (InvalidId, st)
     /\ delete_item E id st = (InvalidId, st))
  /\ (forall n, Js.parseInt id = Some n ->
        let found := find (id_is E (Sql.PText id)) (rows st) in
        let lookup := Sql.SelectById (Sql.PText id) in
        get_item E id st =
          (match found with
           | Some item => {| status := 200; json := JItem item |}
           | None => NotFound
           end, logged lookup st)
        /\ (forall r, In r [put_item E now id body st;
                            patch_item E now id st;
                            delete_item E id st] ->
              fst r <> InvalidId
              /\ (found = None -> r = (NotFound, logged lookup st))
              /\ exists later, log (snd r) = (later ++ lookup :: log st)%list)).
Proof.
  split.
  - intros H. apply invalid_id_true in H.
    rewrite get_item_cases, put_item_cases, patch_item_cases,
      delete_item_cases, H. auto.
  - intros n H. apply invalid_id_false in H. cbv zeta.
    rewrite get_item_cases, put_item_cases, patch_item_cases,
      delete_item_cases, H.
    split; [reflexivity|].
    intros r [<-|[<-|[<-|[]]]];
      destruct (find (id_is E (Sql.PText id)) (rows st)) as [old|].
    + destruct (name_missing _); [|destruct (_ >? 200);
        [|destruct (due_date_invalid _ _)]]; simpl;
        (split; [discriminate|split; [discriminate|]]);
        try (exists []; reflexivity).
      exists [Sql.SelectById (Sql.PText id); Sql.Update (Sql.PText id)].
      reflexivity.
    + simpl. split; [discriminate|split; [reflexivity|]].
      exists []. reflexivity.
    + simpl. split; [discriminate|split; [discriminate|]].
      exists [Sql.SelectById (Sql.PText id); Sql.UpdateCompleted (Sql.PText id)].
      reflexivity.
    + simpl. split; [discriminate|split; [reflexivity|]].
      exists []. reflexivity.
    + simpl. split; [discriminate|split; [discriminate|]].
      exists [Sql.Delete (Sql.PText id)]. reflexivity.
    + simpl. split; [discriminate|split; [reflexivity|]].
      exists []. reflexivity.
Qed.

Lemma invalid_id_rejected_before_lookup_witness :
  (Js.parseInt "abc" = None
   /\ get_item Sample.engine "abc" Sample.db0 = (InvalidId, Sample.db0)
   /\ put_item Sample.engine 1001 "abc" (Sample.named "x") Sample.db0
      = (InvalidId, Sample.db0)
   /\ patch_item Sample.engine 1001 "abc" Sample.db0 = (InvalidId, Sample.db0)
   /\ delete_item Sample.engine "abc" Sample.db0 = (InvalidId, Sample.db0))
  /\ (Js.parseInt "99" = Some 99
      /\ get_item Sample.engine "99" Sample.db0
         = (NotFound, logged (Sql.SelectById (Sql.PText "99")) Sample.db0)).
Proof.
  split.
  - split; [reflexivity|].
    apply (proj1 (invalid_id_rejected_before_lookup Sample.engine 1001 "abc"
                    (Sample.named "x") Sample.db0)).
    reflexivity.
  - split; [reflexivity|].
    apply (proj1 (proj2 (invalid_id_rejected_before_lookup Sample.engine 1001
                           "99" (Sample.named "x") Sample.db0) 99 eq_refl)).
Defined.

(** C5. The checks of a create run in a fixed order and the first that
    fails gives the answer: a missing or blank name is answered "Item name
    is required" whatever the rest of the body; a name of more than 200
    characters once trimmed is answered "Item name must not exceed 200
    characters" whatever the due date; a name of at most 200 characters,
    200 included, passes both checks, and the answer is then "Invalid due
    date format" when the due date does not parse and 201 otherwise. No
    check that fails leaves a trace in the database. *)
Theorem post_item_validation_order E now body st :
  (blank_name (Body.name body) ->
     post_item E now body st = (NameRequired, st))
  /\ (forall n, name_of_length (Body.name body) n -> (200 < n)%nat ->
        post_item E now body st = (NameTooLong, st))
  /\ (forall n, name_of_length (Body.name body) n -> (n <= 200)%nat ->
        (unparsable E (Body.due_date body) ->
           post_item E now body st = (InvalidDueDate, st))
        /\ (~ unparsable E (Body.due_date body) ->
              status (fst (post_item E now body st)) = 201)).
Proof.
  rewrite post_item_cases. split; [|split].
  - intros H. rewrite (name_missing_blank _ H). reflexivity.
  - intros n Hn Hlen. destruct (name_of_length_checks _ _ Hn) as [-> ->].
    destruct (Nat.leb_spec n 200); [lia|reflexivity].
  - intros n Hn Hlen. destruct (name_of_length_checks _ _ Hn) as [-> ->].
    apply Nat.leb_le in Hlen. rewrite Hlen. cbn [negb]. split; intros Hd.
    + apply due_date_invalid_iff in Hd. rewrite Hd. reflexivity.
    + destruct (due_date_invalid E (Body.due_date body)) eqn:Hi;
        [|reflexivity].
      apply due_date_invalid_iff in Hi. contradiction.
Qed.

Lemma post_item_validation_order_witness :
  post_item Sample.engine 1001
    (Sample.due "   " (Js.Text "invalid-date")) Sample.db0
  = (NameRequired, Sample.db0)
  /\ post_item Sample.engine 1001
       (Sample.due Sample.a201 (Js.Text "invalid-date")) Sample.db0
     = (NameTooLong, Sample.db0)
  /\ post_item Sample.engine 1001
       (Sample.due Sample.a200 (Js.Text "invalid-date")) Sample.db0
     = (InvalidDueDate, Sample.db0)
  /\ status (fst (post_item Sample.engine 1001 (Sample.named Sample.a200)
                    Sample.db0)) = 201.
Proof.
  assert (N200 : name_of_length (Js.Str Sample.a200) 200).
  { exists Sample.a200. split; [reflexivity|]. split; [discriminate|reflexivity]. }
  assert (N201 : name_of_length (Js.Str Sample.a201) 201).
  { exists Sample.a201. split; [reflexivity|]. split; [discriminate|reflexivity]. }
  assert (U : unparsable Sample.engine (Js.Text "invalid-date")).
  { exists "invalid-date". split; [reflexivity|].
    split; [discriminate|reflexivity]. }
  split; [|split; [|split]].
  - apply (proj1 (post_item_validation_order Sample.engine 1001
                    (Sample.due "   " (Js.Text "invalid-date")) Sample.db0)).
    right. right. exists "   ". split; reflexivity.
  - apply (proj1 (proj2 (post_item_validation_order Sample.engine 1001
                    (Sample.due Sample.a201 (Js.Text "invalid-date")) Sample.db0))
             201%nat N201).
    lia.
  - apply (proj1 (proj2 (proj2 (post_item_validation_order Sample.engine 1001
                    (Sample.due Sample.a200 (Js.Text "invalid-date")) Sample.db0))
             200%nat N200 (le_n 200)) U).
  - apply (proj2 (proj2 (proj2 (post_item_validation_order Sample.engine 1001
                    (Sample.named Sample.a200) Sample.db0))
             200%nat N200 (le_n 200))).
    intros [s [H _]]. discriminate H.
Defined.



(** C10. A create does not read [completed]: the answer and the database
    are the same whatever the body has for it, and the row of every
    successful create has [completed] 0. *)
Theorem post_item_ignores_completed E t st now body :
  reachable E t st ->
  (forall c,
     post_item E now
       (Body.mk (Body.name body) (Body.description body) c
          (Body.due_date body)) st
     = post_item E now body st)
  /\ (status (fst (post_item E now body st)) = 201 ->
      exists r,
        json (fst (post_item E now body st)) = JItem r
        /\ In r (rows (snd (post_item E now body st)))
        /\ Item.completed r = 0).
Proof.
  intros R. split.
  - intros c. rewrite !post_item_cases. reflexivity.
  - intros H. apply reachable_invariant in R.
    destruct (post_item_created _ _ _ _ _ R H) as [s [Hs Heq]].
    rewrite Heq. simpl. eexists. split; [reflexivity|].
    split; [|reflexivity]. apply in_or_app. right. left. reflexivity.
Qed.

Lemma post_item_ignores_completed_witness :
  reachable Sample.engine 1000 Sample.db0
  /\ exists r,
       json (fst (post_item Sample.engine 1001
                    (Sample.completing (Js.Bool true))
                    Sample.db0)) = JItem r
       /\ Item.completed r = 0.
Proof.
  assert (R : reachable Sample.engine 1000 Sample.db0) by apply reach_init.
  split; [exact R|].
  destruct (proj2 (post_item_ignores_completed Sample.engine 1000 Sample.db0
                     1001
                     (Sample.completing (Js.Bool true))
                     R) eq_refl) as [r [Hj [_ Hc]]].
  exists r. split; assumption.
Defined.

Lemma put_item_rejected E now id body st :
  status (fst (put_item E now id body st)) <> 200 ->
  (status (fst (put_item E now id body st)) = 400
   \/ status (fst (put_item E now id body st)) = 404)
  /\ rows (snd (put_item E now id body st)) = rows st.
Proof.
  rewrite put_item_cases.
  destruct (invalid_id id); [simpl; auto|].
  destruct (find _ _); [|simpl; auto].
  destruct (name_missing _); [simpl; auto|].
  destruct (_ >? 200); [simpl; auto|].
  destruct (due_date_invalid _ _); [simpl; auto|].
  simpl. congruence.
Qed.

(** C2, as the code has it. A due date that is a string, not empty, and
    does not parse as a date makes a create and an update fail and nothing
    is written: a create answers 400 and leaves the database as it was, an
    update answers 400 or 404 and leaves the rows as they were. The answer
    is "Invalid due date format" when the checks that run first pass (for
    an update the id and the lookup, for both the name). The empty string
    is not checked: with it the row is written with no due date. *)
Theorem unparsable_due_date_rejected E now id body st :
  (unparsable E (Body.due_date body) ->
     (status (fst (post_item E now body st)) = 400
      /\ snd (post_item E now body st) = st
      /\ (good_name (Body.name body) ->
          fst (post_item E now body st) = InvalidDueDate))
     /\ ((status (fst (put_item E now id body st)) = 400
          \/ status (fst (put_item E now id body st)) = 404)
         /\ rows (snd (put_item E now id body st)) = rows st
         /\ (Js.parseInt id <> None ->
             find (id_is E (Sql.PText id)) (rows st) <> None ->
             good_name (Body.name body) ->
             fst (put_item E now id body st) = InvalidDueDate)))
  /\ (Body.due_date body = Js.Text "" ->
      good_name (Body.name body) ->
      (exists r,
         status (fst (post_item E now body st)) = 201
         /\ rows (snd (post_item E now body st)) = (rows st ++ [r])%list
         /\ Item.due_date r = None)
      /\ (status (fst (put_item E now id body st)) = 200 ->
          exists r,
            json (fst (put_item E now id body st)) = JItem r
            /\ In r (rows (snd (put_item E now id body st)))
            /\ Item.due_date r = None)).
Proof.
  split.
  - intros U. apply due_date_invalid_iff in U. split.
    + rewrite post_item_cases.
      destruct (name_missing _) eqn:Hn; [|destruct (_ >? 200) eqn:Hl];
        rewrite ?U; simpl; repeat split; auto;
        intros G; apply good_name_checks in G; destruct G; congruence.
    + assert (Hs : status (fst (put_item E now id body st)) <> 200).
      { rewrite put_item_cases.
        destruct (invalid_id id); [discriminate|].
        destruct (find _ _); [|discriminate].
        destruct (name_missing _); [discriminate|].
        destruct (_ >? 200); [discriminate|].
        rewrite U. discriminate. }
      destruct (put_item_rejected _ _ _ _ _ Hs) as [H1 H2].
      split; [exact H1|]. split; [exact H2|].
      intros Hp Hf G. rewrite put_item_cases.
      destruct (Js.parseInt id) eqn:Hpi; [|congruence].
      rewrite (invalid_id_false _ _ Hpi).
      destruct (find _ _); [|congruence].
      apply good_name_checks in G. destruct G as [-> ->].
      rewrite U. reflexivity.
  - intros Hd G. split.
    + rewrite post_item_cases.
      apply good_name_checks in G. destruct G as [-> ->].
      rewrite Hd. simpl. eexists. split; [reflexivity|].
      split; reflexivity.
    + intros H. destruct (put_item_updated _ _ _ _ _ H)
        as [old [s [c [Hf [Hs [Hc Heq]]]]]].
      rewrite Heq. simpl. eexists. split; [reflexivity|].
      apply find_some in Hf. destruct Hf as [Hin Hp].
      split; [apply (in_written _ (fun r => updated now body c r s)); auto|].
      simpl. rewrite Hd. reflexivity.
Qed.

Lemma unparsable_due_date_rejected_witness :
  unparsable Sample.engine (Js.Text "invalid-date")
  /\ post_item Sample.engine 1001
       (Sample.due "x" (Js.Text "invalid-date")) Sample.db0
     = (InvalidDueDate, Sample.db0)
  /\ fst (put_item Sample.engine 1001 "2"
            (Sample.due "x" (Js.Text "invalid-date")) Sample.db0)
     = InvalidDueDate
  /\ rows (snd (put_item Sample.engine 1001 "2"
                  (Sample.due "x" (Js.Text "invalid-date")) Sample.db0))
     = rows Sample.db0.
Proof.
  set (body := Sample.due "x" (Js.Text "invalid-date")).
  assert (U : unparsable Sample.engine (Body.due_date body)).
  { exists "invalid-date". split; [reflexivity|].
    split; [discriminate|reflexivity]. }
  assert (G : good_name (Body.name body)).
  { exists 1%nat. split; [|lia].
    exists "x". split; [reflexivity|]. split; [discriminate|reflexivity]. }
  destruct (proj1 (unparsable_due_date_rejected Sample.engine 1001 "2" body
                     Sample.db0) U)
    as [[_ [P2 P3]] [_ [U2 U3]]].
  split; [exact U|]. split; [|split].
  - rewrite <- P2 at 2. rewrite <- (P3 G). apply surjective_pairing.
  - apply U3; [discriminate|discriminate|exact G].
  - exact U2.
Defined.

(** The claim C2 fails on the empty string, a string that does not parse
    as a date: the create succeeds and the row has no due date. *)
Lemma empty_due_date_stored_as_null :
  date_valid Sample.engine "" = false
  /\ post_item Sample.engine 1001 (Sample.due "x" (Js.Text "")) Sample.db0
     = ({| status := 201;
           json := JItem (Item.mk 4 "x" None 0 None 1001 1001) |},
        {| rows := rows Sample.db0 ++ [Item.mk 4 "x" None 0 None 1001 1001];
           seq := 4;
           log := Sql.SelectById (Sql.PInt 4) :: Sql.Insert
                  :: log Sample.db0 |})
  /\ fst (put_item Sample.engine 1001 "2" (Sample.due "x" (Js.Text ""))
            Sample.db0)
     = {| status := 200;
          json := JItem (Item.mk 2 "x" None 0 None 1000 1001) |}.
Proof. split; [|split]; reflexivity. Qed.

(** C7, as the code has it. A description that is a string and is not
    empty is stored as it is given, by a create and by an update, and the
    row returned holds it; the empty string is stored as NULL. *)
Theorem description_stored E t st now id body s :
  reachable E t st ->
  Body.description body = Js.Text s ->
  (status (fst (post_item E now body st)) = 201 ->
   exists r,
     json (fst (post_item E now body st)) = JItem r
     /\ In r (rows (snd (post_item E now body st)))
     /\ (s <> "" -> Item.description r = Some s)
     /\ (s = "" -> Item.description r = None))
  /\ (status (fst (put_item E now id body st)) = 200 ->
      exists r,
        json (fst (put_item E now id body st)) = JItem r
        /\ In r (rows (snd (put_item E now id body st)))
        /\ (s <> "" -> Item.description r = Some s)
        /\ (s = "" -> Item.description r = None)).
Proof.
  intros R Hd.
  assert (Ho : (s <> "" -> Js.or_null (Body.description body) = Some s)
               /\ (s = "" -> Js.or_null (Body.description body) = None)).
  { rewrite Hd. simpl. split.
    - intros Hs. apply String.eqb_neq in Hs. rewrite Hs. reflexivity.
    - intros ->. reflexivity. }
  split; intros H.
  - apply reachable_invariant in R.
    destruct (post_item_created _ _ _ _ _ R H) as [n [Hn Heq]].
    rewrite Heq. simpl. eexists. split; [reflexivity|].
    split; [apply in_or_app; right; left; reflexivity|exact Ho].
  - destruct (put_item_updated _ _ _ _ _ H)
      as [old [n [c [Hf [Hn [Hc Heq]]]]]].
    rewrite Heq. simpl. eexists. split; [reflexivity|].
    apply find_some in Hf. destruct Hf as [Hin Hp].
    split; [apply (in_written _ (fun r => updated now body c r n)); auto|].
    exact Ho.
Qed.

Lemma description_stored_witness :
  reachable Sample.engine 1000 Sample.db0
  /\ (exists r,
        json (fst (post_item Sample.engine 1001
                    (Sample.described "  two  words ") Sample.db0)) = JItem r
        /\ Item.description r = Some "  two  words ")
  /\ (exists r,
        json (fst (put_item Sample.engine 1001 "2"
                    (Sample.described "  two  words ") Sample.db0)) = JItem r
        /\ Item.description r = Some "  two  words ").
Proof.
  set (body := Sample.described "  two  words ").
  assert (R : reachable Sample.engine 1000 Sample.db0) by apply reach_init.
  destruct (description_stored Sample.engine 1000 Sample.db0 1001 "2" body
              "  two  words " R eq_refl) as [P U].
  split; [exact R|]. split.
  - destruct (P eq_refl) as [r [Hj [_ [Hs _]]]].
    exists r. split; [exact Hj|]. apply Hs. discriminate.
  - destruct (U eq_refl) as [r [Hj [_ [Hs _]]]].
    exists r. split; [exact Hj|]. apply Hs. discriminate.
Defined.

(** The claim C7 fails on the empty string: the create and the update
    succeed and the row holds NULL, not the string. *)
Lemma empty_description_stored_as_null :
  fst (post_item Sample.engine 1001 (Sample.described "") Sample.db0)
  = {| status := 201; json := JItem (Item.mk 4 "x" None 0 None 1001 1001) |}
  /\ fst (put_item Sample.engine 1001 "2" (Sample.described "") Sample.db0)
     = {| status := 200; json := JItem (Item.mk 2 "x" None 0 None 1000 1001) |}
  /\ Item.description (Item.mk 4 "x" None 0 None 1001 1001) <> Some "".
Proof. split; [|split]; [reflexivity|reflexivity|discriminate]. Qed.

Lemma id_is_written E p (w : Item.t -> Item.t) r :
  (forall x, Item.id (w x) = Item.id x) ->
  id_is E p (if id_is E p r then w r else r) = id_is E p r.
Proof.
  intros H. destruct (id_is E p r) eqn:Hr; auto.
  unfold id_is in *. destruct (rowid_of_param E p); auto.
  rewrite H. exact Hr.
Qed.

Lemma same_creation_put E now id body st :
  same_creation (rows st) (rows (snd (put_item E now id body st))).
Proof.
  rewrite put_item_cases.
  destruct (invalid_id id); [apply same_creation_refl|].
  destruct (find _ _); [|apply same_creation_refl].
  destruct (name_missing _); [apply same_creation_refl|].
  destruct (_ >? 200); [apply same_creation_refl|].
  destruct (due_date_invalid _ _); [apply same_creation_refl|].
  simpl. apply same_creation_write; reflexivity.
Qed.

Lemma same_creation_patch E now id st :
  same_creation (rows st) (rows (snd (patch_item E now id st))).
Proof.
  rewrite patch_item_cases.
  destruct (invalid_id id); [apply same_creation_refl|].
  destruct (find _ _); [|apply same_creation_refl].
  simpl. apply same_creation_write; reflexivity.
Qed.

Lemma patch_item_success E now id st :
  status (fst (patch_item E now id st)) = 200 ->
  exists old,
    invalid_id id = false
    /\ find (id_is E (Sql.PText id)) (rows st) = Some old.
Proof.
  rewrite patch_item_cases.
  destruct (invalid_id id); [discriminate|].
  destruct (find _ _) as [old|]; [|discriminate].
  eauto.
Qed.

(** C8. The clock not going back, no row of a reachable database was
    updated before it was created. A create writes the time of the request
    in both timestamps of the row it adds. An update and a toggle leave the
    id and the creation time of every row as they were, whether they
    succeed or fail, and when they succeed the row they return, which is
    in the table, was updated at the time of the request. *)
Theorem timestamps_ordered E t st :
  reachable E t st ->
  Forall (fun r => Item.created_at r <= Item.updated_at r) (rows st)
  /\ (forall now body,
        status (fst (post_item E now body st)) = 201 ->
        exists r,
          json (fst (post_item E now body st)) = JItem r
          /\ rows (snd (post_item E now body st)) = (rows st ++ [r])%list
          /\ Item.created_at r = now /\ Item.updated_at r = now)
  /\ (forall now id body,
        same_creation (rows st) (rows (snd (put_item E now id body st)))
        /\ (status (fst (put_item E now id body st)) = 200 ->
            exists r,
              json (fst (put_item E now id body st)) = JItem r
              /\ In r (rows (snd (put_item E now id body st)))
              /\ Item.updated_at r = now))
  /\ (forall now id,
        same_creation (rows st) (rows (snd (patch_item E now id st)))
        /\ (status (fst (patch_item E now id st)) = 200 ->
            exists r,
              json (fst (patch_item E now id st)) = JItem r
              /\ In r (rows (snd (patch_item E now id st)))
              /\ Item.updated_at r = now)).
Proof.
  intros R. apply reachable_invariant in R.
  split; [|split; [|split]].
  - destruct R as [_ _ H]. eapply Forall_impl; [|exact H].
    intros r [_ _ Hc _]. exact Hc.
  - intros now body H.
    destruct (post_item_created _ _ _ _ _ R H) as [s [Hs Heq]].
    rewrite Heq. simpl. eexists. split; [reflexivity|].
    split; [reflexivity|]. split; reflexivity.
  - intros now id body. split; [apply same_creation_put|].
    intros H. destruct (put_item_updated _ _ _ _ _ H)
      as [old [s [c [Hf [Hs [Hc Heq]]]]]].
    rewrite Heq. simpl. eexists. split; [reflexivity|].
    apply find_some in Hf. destruct Hf as [Hin Hp].
    split; [apply (in_written _ (fun r => updated now body c r s)); auto|].
    reflexivity.
  - intros now id. split; [apply same_creation_patch|].
    intros H. destruct (patch_item_success _ _ _ _ H) as [old [Hi Hf]].
    rewrite (patch_item_toggled _ _ _ _ _ Hi Hf). simpl.
    eexists. split; [reflexivity|].
    apply find_some in Hf. destruct Hf as [Hin Hp].
    split; [|reflexivity].
    apply (in_written _
             (fun r => Item.mk (Item.id r) (Item.name r) (Item.description r)
                         (if Item.completed old =? 1 then 0 else 1)
                         (Item.due_date r) (Item.created_at r) now)); auto.
Qed.

Lemma timestamps_ordered_witness :
  reachable Sample.engine 1005
    (Sample.after 1005 (PatchItem "2")
       (Sample.after 1002 (PostItem (Sample.named "x")) Sample.db0))
  /\ Forall (fun r => Item.created_at r <= Item.updated_at r)
       (rows (Sample.after 1005 (PatchItem "2")
                (Sample.after 1002 (PostItem (Sample.named "x")) Sample.db0))).
Proof.
  assert (R : reachable Sample.engine 1005
                (Sample.after 1005 (PatchItem "2")
                   (Sample.after 1002 (PostItem (Sample.named "x"))
                      Sample.db0))).
  { apply reach_step with (t := 1002); [|lia].
    apply reach_step with (t := 1000); [|lia].
    apply reach_init. }
  split; [exact R|].
  apply (proj1 (timestamps_ordered Sample.engine 1005 _ R)).
Defined.

(** C9. For a row of a reachable database and an id that denotes it, a
    toggle answers the row with [completed] flipped (0 becomes 1, 1 becomes
    0) and [updated_at] the time of the request, the other columns as they
    were, and that row is in the table; a second toggle answers the row
    with [completed] as it was before the first, [updated_at] the time of
    the second request. *)
Theorem patch_item_toggles E t st id old now1 now2 :
  reachable E t st ->
  In old (rows st) ->
  denotes E id old ->
  exists r1 r2,
    fst (patch_item E now1 id st) = {| status := 200; json := JItem r1 |}
    /\ In r1 (rows (snd (patch_item E now1 id st)))
    /\ (Item.completed old = 0 \/ Item.completed old = 1)
    /\ Item.completed r1 = 1 - Item.completed old
    /\ Item.updated_at r1 = now1
    /\ Item.name r1 = Item.name old
    /\ Item.description r1 = Item.description old
    /\ Item.due_date r1 = Item.due_date old
    /\ Item.id r1 = Item.id old
    /\ Item.created_at r1 = Item.created_at old
    /\ fst (patch_item E now2 id (snd (patch_item E now1 id st)))
       = {| status := 200; json := JItem r2 |}
    /\ In r2 (rows (snd (patch_item E now2 id
                           (snd (patch_item E now1 id st)))))
    /\ Item.completed r2 = Item.completed old
    /\ Item.updated_at r2 = now2
    /\ Item.name r2 = Item.name old
    /\ Item.description r2 = Item.description old
    /\ Item.due_date r2 = Item.due_date old.
Proof.
  intros R Hin D. apply reachable_invariant in R.
  destruct (find_denoted _ _ _ _ _ R Hin D) as [Hi Hf].
  assert (Hc : Item.completed old = 0 \/ Item.completed old = 1).
  { destruct R as [_ _ H]. rewrite Forall_forall in H.
    destruct (H _ Hin) as [_ Hc _ _]. exact Hc. }
  pose proof (patch_item_toggled E now1 id st old Hi Hf) as H1.
  set (w1 := fun r => Item.mk (Item.id r) (Item.name r) (Item.description r)
                        (if Item.completed old =? 1 then 0 else 1)
                        (Item.due_date r) (Item.created_at r) now1) in *.
  assert (Hp : id_is E (Sql.PText id) old = true)
    by (apply find_some in Hf; tauto).
  assert (Hf2 : find (id_is E (Sql.PText id))
                  (rows (snd (patch_item E now1 id st)))
                = Some (toggled now1 old)).
  { rewrite H1. simpl. rewrite find_map_same.
    - rewrite Hf. simpl. rewrite Hp. reflexivity.
    - intros x. apply (id_is_written E (Sql.PText id) w1). reflexivity. }
  pose proof (patch_item_toggled E now2 id _ _ Hi Hf2) as H2.
  exists (toggled now1 old), (toggled now2 (toggled now1 old)).
  rewrite H2. rewrite H1 at 1 2. simpl.
  split; [reflexivity|].
  split; [apply (in_written _ w1); auto|].
  split; [exact Hc|].
  split; [destruct Hc as [-> | ->]; reflexivity|].
  do 6 (split; [reflexivity|]).
  split; [reflexivity|].
  split.
  - apply (in_written _
             (fun r => Item.mk (Item.id r) (Item.name r) (Item.description r)
                         (if (if Item.completed old =? 1 then 0 else 1) =? 1
                          then 0 else 1)
                         (Item.due_date r) (Item.created_at r) now2)).
    + rewrite H1. simpl. apply (in_written _ w1); auto.
    + unfold id_is in *. destruct (rowid_of_param E (Sql.PText id)); auto.
  - split; [destruct Hc as [-> | ->]; reflexivity|].
    repeat split; reflexivity.
Qed.

Lemma patch_item_toggles_witness :
  reachable Sample.engine 1000 Sample.db0
  /\ In Sample.task2 (rows Sample.db0)
  /\ denotes Sample.engine "2" Sample.task2
  /\ exists r1 r2,
       fst (patch_item Sample.engine 1001 "2" Sample.db0)
       = {| status := 200; json := JItem r1 |}
       /\ Item.completed r1 = 0
       /\ fst (patch_item Sample.engine 1002 "2"
                 (snd (patch_item Sample.engine 1001 "2" Sample.db0)))
          = {| status := 200; json := JItem r2 |}
       /\ Item.completed r2 = 1.
Proof.
  assert (R : reachable Sample.engine 1000 Sample.db0) by apply reach_init.
  assert (I : In Sample.task2 (rows Sample.db0))
    by (right; left; reflexivity).
  assert (D : denotes Sample.engine "2"
                Sample.task2)
    by (split; [discriminate|reflexivity]).
  split; [exact R|]. split; [exact I|]. split; [exact D|].
  destruct (patch_item_toggles Sample.engine 1000 Sample.db0 "2" _ 1001 1002
              R I D)
    as [r1 [r2 H]].
  exists r1, r2.
  destruct H as [H1 [_ [_ [H4 [_ [_ [_ [_ [_ [_ [H11 [_ [H13 _]]]]]]]]]]]]].
  split; [exact H1|]. split; [exact H4|]. split; [exact H11|exact H13].
Defined.

(* ================================================================== *)
(** ** Further properties: strings *)
(* ================================================================== *)

Lemma trimEnd_head c r :
  Js.is_white_space c = false ->
  exists r', Js.trimEnd (String c r) = String c r'.
Proof.
  intros Hc. simpl. destruct (Js.trimEnd r); rewrite ?Hc; eauto.
Qed.

Lemma trimStart_fixed s :
  match s with
  | EmptyString => True
  | String c _ => Js.is_white_space c = false
  end ->
  Js.trimStart s = s.
Proof. destruct s as [|c r]; simpl; auto. intros ->. reflexivity. Qed.

Lemma trimStart_head s :
  match Js.trimStart s with
  | EmptyString => True
  | String c _ => Js.is_white_space c = false
  end.
Proof.
  induction s as [|c r IH]; simpl; auto.
  destruct (Js.is_white_space c) eqn:Hc; simpl; auto.
Qed.

Lemma trimEnd_twice s : Js.trimEnd (Js.trimEnd s) = Js.trimEnd s.
Proof.
  induction s as [|c r IH]; simpl; auto.
  destruct (Js.trimEnd r) as [|c' r'] eqn:Hr.
  - destruct (Js.is_white_space c) eqn:Hc; simpl; rewrite ?Hc; reflexivity.
  - change (Js.trimEnd (String c (String c' r')) = String c (String c' r')).
    simpl. simpl in IH. rewrite IH. reflexivity.
Qed.

(** Trimming a trimmed string changes nothing. *)
Lemma trim_twice s : Js.trim (Js.trim s) = Js.trim s.
Proof.
  unfold Js.trim.
  assert (H : Js.trimStart (Js.trimEnd (Js.trimStart s))
              = Js.trimEnd (Js.trimStart s)).
  { pose proof (trimStart_head s) as Hh.
    destruct (Js.trimStart s) as [|c r]; [reflexivity|].
    destruct (trimEnd_head c r Hh) as [r' Hr]. rewrite Hr.
    apply trimStart_fixed. exact Hh. }
  rewrite H. apply trimEnd_twice.
Qed.

Lemma toLowerCase_empty s : Js.toLowerCase s = "" -> s = "".
Proof. destruct s; simpl; [auto|discriminate]. Qed.

Lemma prefix_occurs p s : prefix p s = true <-> exists b, s = p ++ b.
Proof.
  revert s. induction p as [|c p IH]; intros [|d s]; simpl.
  - split; [intros _; exists ""; reflexivity|reflexivity].
  - split; [intros _; exists (String d s); reflexivity|reflexivity].
  - split; [discriminate|intros [b H]; discriminate].
  - destruct (ascii_dec c d) as [->|Hn].
    + rewrite IH. split; intros [b H]; exists b; congruence.
    + split; [discriminate|]. intros [b H]. congruence.
Qed.

(** [includes] finds the substrings. *)
Lemma includes_occurs hay needle :
  Js.includes hay needle = true <-> occurs needle hay.
Proof.
  unfold occurs. induction hay as [|c hay IH]; cbn [Js.includes].
  - rewrite orb_false_r, prefix_occurs. split.
    + intros [b H]. exists "", b. exact H.
    + intros [a [b H]]. destruct a; simpl in H; [eauto|discriminate].
  - rewrite orb_true_iff, prefix_occurs, IH. split.
    + intros [[b H]|[a [b H]]].
      * exists "", b. exact H.
      * exists (String c a), b. simpl. congruence.
    + intros [a [b H]]. destruct a as [|c' a]; simpl in H.
      * left. eauto.
      * right. exists a, b. congruence.
Qed.

(* ================================================================== *)
(** ** Further properties: the list *)
(* ================================================================== *)

(** On a sorted list, filtering after an insertion is inserting after the
    filtering. *)
Lemma filter_insert cl (p : Item.t -> bool) x l :
  StronglySorted (row_le cl) l ->
  List.filter p (Sql.insert cl x l) =
    if p x then Sql.insert cl x (List.filter p l) else List.filter p l.
Proof.
  induction 1 as [|y l S IH F]; simpl.
  - destruct (p x); reflexivity.
  - destruct (Sql.row_leb cl x y) eqn:Exy; simpl.
    + destruct (p x) eqn:Hx; destruct (p y) eqn:Hy; simpl;
        rewrite ?Exy; auto.
      (* [y] is dropped: [x] is below all that follows *)
      assert (Hall : Forall (row_le cl x) (List.filter p l)).
      { rewrite Forall_forall in *. intros z Hz. apply filter_In in Hz.
        eapply row_le_trans; [exact Exy|]. apply F, Hz. }
      destruct (List.filter p l) as [|z l']; [reflexivity|].
      simpl. inversion Hall as [|? ? Hz _]; subst.
      unfold row_le in Hz. rewrite Hz. reflexivity.
    + rewrite IH. destruct (p x), (p y); simpl; rewrite ?Exy; reflexivity.
Qed.

Lemma filter_order_by cl (p : Item.t -> bool) l :
  List.filter p (Sql.order_by cl l) = Sql.order_by cl (List.filter p l).
Proof.
  unfold Sql.order_by. induction l as [|x l IH]; simpl; auto.
  rewrite filter_insert by apply order_by_sorted.
  fold (Sql.order_by cl l) in *. rewrite IH.
  destruct (p x); reflexivity.
Qed.

Lemma applyFilters_order_by cl items filter search :
  applyFilters (Sql.order_by cl items) filter search
  = Sql.order_by cl (applyFilters items filter search).
Proof.
  unfold applyFilters.
  assert (H1 :
    match filter with
    | Some f =>
        if (f =? "complete")%string
        then List.filter (fun item => Item.completed item =? 1)
               (Sql.order_by cl items)
        else if (f =? "incomplete")%string
        then List.filter (fun item => Item.completed item =? 0)
               (Sql.order_by cl items)
        else Sql.order_by cl items
    | None => Sql.order_by cl items
    end
    = Sql.order_by cl
        match filter with
        | Some f =>
            if (f =? "complete")%string
            then List.filter (fun item => Item.completed item =? 1) items
            else if (f =? "incomplete")%string
            then List.filter (fun item => Item.completed item =? 0) items
            else items
        | None => items
        end).
  { destruct filter as [f|]; auto.
    destruct (f =? "complete")%string; [apply filter_order_by|].
    destruct (f =? "incomplete")%string; [apply filter_order_by|auto]. }
  rewrite H1.
  destruct search as [s|]; auto.
  destruct (Js.truthy (Js.Str s) && Js.truthy (Js.Str (Js.trim s))); auto.
  apply filter_order_by.
Qed.

(** X1. The filters and the sort commute: the list [GET /api/items]
    answers, which the handler obtains by filtering the sorted table, is
    the table filtered first and sorted afterwards. *)
Theorem get_items_sorts_filtered q cl st :
  getSortClause (Query.sort q) (Query.order q) = Some cl ->
  fst (get_items q st) =
    {| status := 200;
       json := JItems (Sql.order_by cl
                         (applyFilters (rows st) (Query.filter q)
                            (Query.search q))) |}.
Proof.
  intros H. rewrite (get_items_clause _ _ _ H). simpl.
  rewrite applyFilters_order_by. reflexivity.
Qed.

Lemma get_items_sorts_filtered_witness :
  getSortClause (Some "name") (Some "asc") = Some [(Sql.Col Sql.name, Sql.ASC)]
  /\ fst (get_items
            (Query.mk (Some "name") (Some "asc") (Some "incomplete")
               (Some "task")) Sample.db0)
     = {| status := 200;
          json := JItems (Sql.order_by [(Sql.Col Sql.name, Sql.ASC)]
                            (applyFilters (rows Sample.db0)
                               (Some "incomplete") (Some "task"))) |}.
Proof.
  split; [reflexivity|].
  apply (get_items_sorts_filtered
           (Query.mk (Some "name") (Some "asc") (Some "incomplete")
              (Some "task")) _ Sample.db0).
  reflexivity.
Defined.

Lemma kept_filter filter r items :
  In r
    match filter with
    | Some f =>
        if (f =? "complete")%string
        then List.filter (fun item => Item.completed item =? 1) items
        else if (f =? "incomplete")%string
        then List.filter (fun item => Item.completed item =? 0) items
        else items
    | None => items
    end
  <-> In r items /\ kept filter r.
Proof.
  unfold kept. destruct filter as [f|].
  - destruct (String.eqb_spec f "complete") as [->|Hc].
    + rewrite filter_In, Z.eqb_eq. intuition discriminate.
    + destruct (String.eqb_spec f "incomplete") as [->|Hi].
      * rewrite filter_In, Z.eqb_eq. intuition discriminate.
      * intuition congruence.
  - intuition discriminate.
Qed.

Lemma searched_filter s r :
  Js.trim s <> "" ->
  Js.truthy (Js.Str (Item.name r))
  && Js.includes (Js.toLowerCase (Item.name r)) (Js.toLowerCase (Js.trim s))
  || match Item.description r with
     | Some d =>
         Js.truthy (Js.Str d)
         && Js.includes (Js.toLowerCase d) (Js.toLowerCase (Js.trim s))
     | None => false
     end = true
  <-> searched (Some s) r.
Proof.
  intros Hs.
  assert (Ht : Js.toLowerCase (Js.trim s) <> "")
    by (intros H; apply toLowerCase_empty in H; contradiction).
  assert (Hg : forall x,
    Js.truthy (Js.Str x)
    && Js.includes (Js.toLowerCase x) (Js.toLowerCase (Js.trim s)) = true
    <-> occurs (Js.toLowerCase (Js.trim s)) (Js.toLowerCase x)).
  { intros x. rewrite andb_true_iff, includes_occurs. split; [tauto|].
    intros H. split; auto. destruct x; [|reflexivity].
    destruct H as [a [b H]]. simpl in H.
    destruct a; simpl in H; [|discriminate].
    destruct (Js.toLowerCase (Js.trim s)); simpl in H; congruence. }
  unfold searched. rewrite orb_true_iff, Hg. split.
  - intros [H|H]; [auto|]. right. right.
    destruct (Item.description r) as [d|]; [|discriminate].
    exists d. split; auto. apply Hg. exact H.
  - intros [H|[H|[d [Hd H]]]]; [contradiction|auto|].
    right. rewrite Hd. apply Hg. exact H.
Qed.

Lemma applyFilters_In items filter search r :
  In r (applyFilters items filter search)
  <-> In r items /\ kept filter r /\ searched search r.
Proof.
  unfold applyFilters. destruct search as [s|].
  - destruct (Js.truthy (Js.Str s) && Js.truthy (Js.Str (Js.trim s)))
      eqn:Hb.
    + apply andb_true_iff in Hb. destruct Hb as [_ Hb].
      assert (Hs : Js.trim s <> "").
      { intros H. rewrite H in Hb. discriminate. }
      rewrite filter_In, kept_filter, (searched_filter s r Hs). tauto.
    + rewrite kept_filter.
      assert (Hs : Js.trim s = "").
      { apply andb_false_iff in Hb. destruct Hb as [Hb|Hb].
        - destruct s; [reflexivity|discriminate].
        - simpl in Hb. destruct (String.eqb_spec (Js.trim s) ""); auto.
          discriminate. }
      unfold searched. tauto.
  - rewrite kept_filter. simpl. tauto.
Qed.

(** X2. What the list holds. When [GET /api/items] answers a list, a row is
    in it exactly when it is in the table, passes the completion filter
    ([complete] keeps [completed = 1], [incomplete] keeps [completed = 0],
    any other value keeps all) and passes the search: the search is absent
    or blank, or its term, trimmed and in lower case, is a substring of the
    name in lower case or of the description in lower case. *)
Theorem get_items_members q st l :
  fst (get_items q st) = {| status := 200; json := JItems l |} ->
  forall r,
    In r l
    <-> In r (rows st) /\ kept (Query.filter q) r
        /\ searched (Query.search q) r.
Proof.
  unfold get_items.
  destruct (getSortClause _ _) as [cl|]; [|discriminate].
  simpl. intros H r. injection H as <-.
  rewrite applyFilters_In.
  split; intros [H1 H2]; split; auto.
  - eapply Permutation_in; [apply order_by_perm|exact H1].
  - eapply Permutation_in; [symmetry; apply order_by_perm|exact H1].
Qed.

Lemma get_items_members_witness :
  fst (get_items (Query.mk None None (Some "incomplete") (Some " IMPORTANT "))
         Sample.db0)
  = {| status := 200;
       json := JItems [Item.mk 3 "Sample Task 3" (Some "Very important task")
                         0 (Some "2023-12-31T00:00:00.000Z") 1000 1000] |}
  /\ (In Sample.task2
        [Item.mk 3 "Sample Task 3" (Some "Very important task")
           0 (Some "2023-12-31T00:00:00.000Z") 1000 1000]
      <-> In Sample.task2 (rows Sample.db0)
          /\ kept (Some "incomplete") Sample.task2
          /\ searched (Some " IMPORTANT ") Sample.task2).
Proof.
  split; [reflexivity|].
  apply (get_items_members
           (Query.mk None None (Some "incomplete") (Some " IMPORTANT "))
           Sample.db0 _ eq_refl Sample.task2).
Defined.

Lemma filter_partition {A} (p q : A -> bool) l :
  Forall (fun x => p x = negb (q x)) l ->
  Permutation (List.filter p l ++ List.filter q l) l.
Proof.
  induction 1 as [|x l Hx F IH]; simpl; auto.
  rewrite Hx. destruct (q x); simpl.
  - rewrite <- Permutation_middle. auto.
  - auto.
Qed.

Lemma applyFilters_app a b search :
  applyFilters (a ++ b) None search
  = (applyFilters a None search ++ applyFilters b None search)%list.
Proof.
  unfold applyFilters. destruct search as [s|]; auto.
  destruct (Js.truthy (Js.Str s) && Js.truthy (Js.Str (Js.trim s))); auto.
  apply filter_app.
Qed.

(** X3. In a reachable database every item is complete or incomplete and
    not both: for the same sort and search, the list of the complete
    items and the list of the incomplete items together hold the items of
    the unfiltered list, each once. *)
Theorem complete_incomplete_partition E t st sort order search cl :
  reachable E t st ->
  getSortClause sort order = Some cl ->
  exists lc li la,
    fst (get_items (Query.mk sort order (Some "complete") search) st)
    = {| status := 200; json := JItems lc |}
    /\ fst (get_items (Query.mk sort order (Some "incomplete") search) st)
       = {| status := 200; json := JItems li |}
    /\ fst (get_items (Query.mk sort order None search) st)
       = {| status := 200; json := JItems la |}
    /\ Permutation (lc ++ li) la.
Proof.
  intros R Hc. apply reachable_invariant in R.
  do 3 eexists.
  rewrite !(get_items_sorts_filtered _ cl) by exact Hc.
  split; [reflexivity|]. split; [reflexivity|]. split; [reflexivity|].
  cbn [Query.filter Query.search].
  rewrite !order_by_perm.
  change (applyFilters (rows st) (Some "complete") search)
    with (applyFilters
            (List.filter (fun item => Item.completed item =? 1) (rows st))
            None search).
  change (applyFilters (rows st) (Some "incomplete") search)
    with (applyFilters
            (List.filter (fun item => Item.completed item =? 0) (rows st))
            None search).
  rewrite <- applyFilters_app. apply applyFilters_perm.
  apply filter_partition. destruct R as [_ _ H].
  eapply Forall_impl; [|exact H].
  intros r [_ [-> | ->] _ _]; reflexivity.
Qed.

Lemma complete_incomplete_partition_witness :
  reachable Sample.engine 1000 Sample.db0
  /\ getSortClause (Some "name") None = Some [(Sql.Col Sql.name, Sql.DESC)]
  /\ exists lc li la,
       fst (get_items (Query.mk (Some "name") None (Some "complete") None)
              Sample.db0)
       = {| status := 200; json := JItems lc |}
       /\ fst (get_items (Query.mk (Some "name") None (Some "incomplete") None)
                 Sample.db0)
          = {| status := 200; json := JItems li |}
       /\ fst (get_items (Query.mk (Some "name") None None None) Sample.db0)
          = {| status := 200; json := JItems la |}
       /\ Permutation (lc ++ li) la.
Proof.
  assert (R : reachable Sample.engine 1000 Sample.db0) by apply reach_init.
  split; [exact R|]. split; [reflexivity|].
  apply (complete_incomplete_partition Sample.engine 1000 Sample.db0
           (Some "name") None None _ R eq_refl).
Defined.

Lemma inherited_test k :
  existsb (String.eqb k) object_prototype_keys = true
  <-> inherited_sort (Some k).
Proof.
  unfold inherited_sort. rewrite existsb_exists. split.
  - intros [x [Hin Hx]]. apply String.eqb_eq in Hx. subst. eauto.
  - intros [x [Hx Hin]]. injection Hx as <-.
    exists k. split; auto. apply String.eqb_refl.
Qed.

Lemma validSorts_missing sort :
  ~ own_sort sort -> ~ inherited_sort sort -> validSorts sort = None.
Proof.
  unfold own_sort. intros Ho Hi. destruct sort as [k|]; [|reflexivity].
  unfold validSorts.
  destruct (String.eqb_spec k "date") as [->|_]; [exfalso; auto|].
  destruct (String.eqb_spec k "name") as [->|_]; [exfalso; auto|].
  destruct (String.eqb_spec k "created") as [->|_]; [exfalso; auto|].
  destruct (existsb (String.eqb k) object_prototype_keys) eqn:He;
    [|reflexivity].
  apply inherited_test in He. contradiction.
Qed.

Lemma validSorts_inherited sort :
  inherited_sort sort -> validSorts sort = Some Inherited.
Proof.
  intros [k [-> Hin]]. simpl in Hin.
  repeat (destruct Hin as [<-|Hin]; [reflexivity|]). contradiction.
Qed.

Lemma getSortClause_some sort order :
  ~ inherited_sort sort -> exists cl, getSortClause sort order = Some cl.
Proof.
  intros Hi. unfold getSortClause.
  destruct (validSorts sort) as [[c|]|] eqn:Hv.
  - destruct c; eauto.
  - exfalso. apply Hi. destruct sort as [k|]; [|discriminate].
    apply inherited_test. unfold validSorts in Hv.
    destruct (k =? "date")%string; [discriminate|].
    destruct (k =? "name")%string; [discriminate|].
    destruct (k =? "created")%string; [discriminate|].
    destruct (existsb (String.eqb k) object_prototype_keys); congruence.
  - eauto.
Qed.

(** X4. [GET /api/items] only reads, and fails on one kind of query. The
    rows and the sequence are the same after it. When [sort] is the name of
    a member every object inherits ("constructor", "toString", ...), the
    lookup in [validSorts] finds that member, the text built is not an
    ordering term, and the answer is 500 "Failed to fetch items", no
    statement having run; for every other query the answer is 200. *)
Theorem get_items_status q st :
  rows (snd (get_items q st)) = rows st
  /\ seq (snd (get_items q st)) = seq st
  /\ (inherited_sort (Query.sort q) ->
      get_items q st
      = ({| status := 500; json := JError "Failed to fetch items" |}, st))
  /\ (~ inherited_sort (Query.sort q) ->
      status (fst (get_items q st)) = 200).
Proof.
  unfold get_items. repeat split.
  - destruct (getSortClause _ _); reflexivity.
  - destruct (getSortClause _ _); reflexivity.
  - intros H. unfold getSortClause.
    rewrite (validSorts_inherited _ H). reflexivity.
  - intros H.
    destruct (getSortClause_some _ (Query.order q) H) as [cl ->].
    reflexivity.
Qed.

Lemma get_items_status_witness :
  inherited_sort (Some "constructor")
  /\ get_items (Query.mk (Some "constructor") None None None) Sample.db0
     = ({| status := 500; json := JError "Failed to fetch items" |},
        Sample.db0)
  /\ ~ inherited_sort (Some "priority")
  /\ status (fst (get_items (Query.mk (Some "priority") None None None)
                    Sample.db0)) = 200.
Proof.
  assert (I : inherited_sort (Some "constructor")).
  { exists "constructor". split; [reflexivity|]. left. reflexivity. }
  assert (N : ~ inherited_sort (Some "priority")).
  { intros H. apply inherited_test in H. discriminate H. }
  split; [exact I|]. split; [|split; [exact N|]].
  - apply (proj1 (proj2 (proj2 (get_items_status
             (Query.mk (Some "constructor") None None None) Sample.db0))) I).
  - apply (proj2 (proj2 (proj2 (get_items_status
             (Query.mk (Some "priority") None None None) Sample.db0))) N).
Defined.

(** X5. The defaults of the list. A sort that is not "date", "name" or
    "created" (and not the name of an inherited member), the absent sort
    included, is answered as "created"; an order that is not "asc", the
    absent order included, is answered as "desc". *)
Theorem get_items_defaults q st :
  (~ own_sort (Query.sort q) -> ~ inherited_sort (Query.sort q) ->
   get_items q st
   = get_items (Query.mk (Some "created") (Query.order q) (Query.filter q)
                  (Query.search q)) st)
  /\ (Query.order q <> Some "asc" ->
      get_items q st
      = get_items (Query.mk (Query.sort q) (Some "desc") (Query.filter q)
                     (Query.search q)) st).
Proof.
  split.
  - intros Ho Hi. unfold get_items, getSortClause. simpl.
    rewrite (validSorts_missing _ Ho Hi). reflexivity.
  - intros Ha. unfold get_items, getSortClause. simpl.
    destruct (Query.order q) as [o|]; [|reflexivity].
    destruct (String.eqb_spec o "asc") as [->|_]; [congruence|reflexivity].
Qed.

Lemma get_items_defaults_witness :
  get_items (Query.mk (Some "priority") (Some "ASC") None None) Sample.db0
  = get_items (Query.mk (Some "created") (Some "ASC") None None) Sample.db0
  /\ get_items (Query.mk (Some "priority") (Some "ASC") None None) Sample.db0
     = get_items (Query.mk (Some "priority") (Some "desc") None None)
         Sample.db0.
Proof.
  split.
  - apply (proj1 (get_items_defaults
                    (Query.mk (Some "priority") (Some "ASC") None None)
                    Sample.db0)).
    + intros [H|[H|H]]; discriminate H.
    + intros H. apply inherited_test in H. discriminate H.
  - apply (proj2 (get_items_defaults
                    (Query.mk (Some "priority") (Some "ASC") None None)
                    Sample.db0)).
    discriminate.
Defined.

Lemma created_clause_order d x y :
  row_le [(Sql.Col Sql.created_at, d)] x y -> created_order d x y.
Proof.
  unfold row_le, Sql.row_leb, created_order. simpl.
  destruct d; simpl; intros H;
    destruct (Z.compare_spec (Item.created_at x) (Item.created_at y));
    simpl in H; try lia; congruence.
Qed.

(** X6. The list sorted by creation time, which is also the list of a query
    without sort, holds the rows that pass the filters, oldest first for
    [order=asc] and newest first for every other order. *)
Theorem get_items_by_created q st :
  Query.sort q = Some "created" \/ Query.sort q = None ->
  exists l,
    fst (get_items q st) = {| status := 200; json := JItems l |}
    /\ Permutation l
         (applyFilters (rows st) (Query.filter q) (Query.search q))
    /\ (Query.order q = Some "asc" ->
        StronglySorted (created_order Sql.ASC) l)
    /\ (Query.order q <> Some "asc" ->
        StronglySorted (created_order Sql.DESC) l).
Proof.
  intros Hs.
  assert (Hc : getSortClause (Query.sort q) (Query.order q)
               = Some [(Sql.Col Sql.created_at,
                        match Query.order q with
                        | Some o => if (o =? "asc")%string
                                    then Sql.ASC else Sql.DESC
                        | None => Sql.DESC
                        end)]).
  { destruct Hs as [-> | ->]; reflexivity. }
  eexists. rewrite (get_items_clause _ _ _ Hc). simpl.
  split; [reflexivity|]. split; [apply applyFilters_perm, order_by_perm|].
  split; intros Ho; apply applyFilters_sorted;
    (eapply sorted_weaken; [apply created_clause_order|]).
  - rewrite Ho. apply order_by_sorted.
  - destruct (Query.order q) as [o|]; [|apply order_by_sorted].
    destruct (o =? "asc")%string eqn:Heq; [|apply order_by_sorted].
    apply String.eqb_eq in Heq. congruence.
Qed.

Lemma get_items_by_created_witness :
  (Query.sort (Query.mk None None None None) = Some "created"
   \/ Query.sort (Query.mk None None None None) = None)
  /\ exists l,
       fst (get_items (Query.mk None None None None)
              (Sample.after 1005 (PostItem (Sample.named "x")) Sample.db0))
       = {| status := 200; json := JItems l |}
       /\ StronglySorted (created_order Sql.DESC) l.
Proof.
  split; [right; reflexivity|].
  destruct (get_items_by_created (Query.mk None None None None)
              (Sample.after 1005 (PostItem (Sample.named "x")) Sample.db0)
              (or_intror eq_refl)) as [l [H1 [_ [_ H4]]]].
  exists l. split; [exact H1|]. apply H4. discriminate.
Defined.

(* ================================================================== *)
(** ** Further properties: the store *)
(* ================================================================== *)

Lemma find_filter_out {A} (p : A -> bool) l :
  find p (List.filter (fun x => negb (p x)) l) = None.
Proof.
  induction l as [|x l IH]; simpl; auto.
  destruct (p x) eqn:Hx; simpl; rewrite ?Hx; auto.
Qed.

Lemma delete_item_success E id st :
  status (fst (delete_item E id st)) = 200 ->
  exists old,
    invalid_id id = false
    /\ find (id_is E (Sql.PText id)) (rows st) = Some old
    /\ rows (snd (delete_item E id st))
       = List.filter (fun r => negb (id_is E (Sql.PText id) r)) (rows st)
    /\ seq (snd (delete_item E id st)) = seq st.
Proof.
  rewrite delete_item_cases.
  destruct (invalid_id id); [discriminate|].
  destruct (find _ _) as [old|]; [|discriminate].
  intros _. exists old. auto.
Qed.

(** X7. A delete is final. After a delete that succeeded, reading,
    updating, toggling and deleting with the same id are answered "Item
    not found" (404). *)
Theorem delete_item_final E now id body st :
  status (fst (delete_item E id st)) = 200 ->
  fst (get_item E id (snd (delete_item E id st))) = NotFound
  /\ fst (put_item E now id body (snd (delete_item E id st))) = NotFound
  /\ fst (patch_item E now id (snd (delete_item E id st))) = NotFound
  /\ fst (delete_item E id (snd (delete_item E id st))) = NotFound.
Proof.
  intros H. destruct (delete_item_success _ _ _ H) as [old [Hi [_ [Hr _]]]].
  set (st' := snd (delete_item E id st)) in *.
  rewrite get_item_cases, put_item_cases, patch_item_cases,
    (delete_item_cases E id st'), Hi, Hr, find_filter_out.
  auto.
Qed.

Lemma delete_item_final_witness :
  status (fst (delete_item Sample.engine "2" Sample.db0)) = 200
  /\ fst (get_item Sample.engine "2"
            (snd (delete_item Sample.engine "2" Sample.db0))) = NotFound
  /\ fst (delete_item Sample.engine "2"
            (snd (delete_item Sample.engine "2" Sample.db0))) = NotFound.
Proof.
  split; [reflexivity|].
  destruct (delete_item_final Sample.engine 1001 "2" (Sample.named "x")
              Sample.db0 eq_refl) as [H1 [_ [_ H4]]].
  split; assumption.
Defined.

(** X8. A create can be read back. In a reachable database, the item a
    successful create returns is the one a read answers for an id that
    denotes it, in every column. *)
Theorem post_item_then_get E t st now body r id :
  reachable E t st -> t <= now ->
  fst (post_item E now body st) = {| status := 201; json := JItem r |} ->
  denotes E id r ->
  fst (get_item E id (snd (post_item E now body st)))
  = {| status := 200; json := JItem r |}.
Proof.
  intros R Ht H D.
  pose proof (reachable_invariant _ _ _ R) as I.
  assert (I' : invariant now (snd (post_item E now body st)))
    by exact (invariant_handle E t now (PostItem body) st Ht I).
  assert (Hs : status (fst (post_item E now body st)) = 201)
    by (rewrite H; reflexivity).
  destruct (post_item_created _ _ _ _ _ I Hs) as [s [_ Heq]].
  assert (Hin : In r (rows (snd (post_item E now body st)))).
  { rewrite Heq in H |- *. simpl in *. injection H as <-.
    apply in_or_app. right. left. reflexivity. }
  destruct (find_denoted _ _ _ _ _ I' Hin D) as [Hi Hf].
  rewrite get_item_cases, Hi, Hf. reflexivity.
Qed.

Lemma post_item_then_get_witness :
  reachable Sample.engine 1000 Sample.db0
  /\ fst (post_item Sample.engine 1001 (Sample.named "x") Sample.db0)
     = {| status := 201; json := JItem (Item.mk 4 "x" None 0 None 1001 1001) |}
  /\ denotes Sample.engine "4" (Item.mk 4 "x" None 0 None 1001 1001)
  /\ fst (get_item Sample.engine "4"
            (snd (post_item Sample.engine 1001 (Sample.named "x")
                    Sample.db0)))
     = {| status := 200; json := JItem (Item.mk 4 "x" None 0 None 1001 1001) |}.
Proof.
  assert (R : reachable Sample.engine 1000 Sample.db0) by apply reach_init.
  assert (D : denotes Sample.engine "4" (Item.mk 4 "x" None 0 None 1001 1001))
    by (split; [discriminate|reflexivity]).
  split; [exact R|]. split; [reflexivity|]. split; [exact D|].
  apply (post_item_then_get Sample.engine 1000 Sample.db0 1001
           (Sample.named "x") _ "4" R); [lia|reflexivity|exact D].
Defined.

Lemma find_written E p (w : Item.t -> Item.t) l old :
  (forall x, Item.id (w x) = Item.id x) ->
  find (id_is E p) l = Some old ->
  find (id_is E p) (map (fun r => if id_is E p r then w r else r) l)
  = Some (w old).
Proof.
  intros Hw Hf. rewrite find_map_same.
  - rewrite Hf. simpl. apply find_some in Hf. destruct Hf as [_ ->].
    reflexivity.
  - intros x. apply (id_is_written E p w). exact Hw.
Qed.

(** X9. An update and a toggle can be read back: after one that succeeded,
    a read with the same id answers the item the update or the toggle
    returned. *)
Theorem write_then_get E now id body st :
  (status (fst (put_item E now id body st)) = 200 ->
   fst (get_item E id (snd (put_item E now id body st)))
   = fst (put_item E now id body st))
  /\ (status (fst (patch_item E now id st)) = 200 ->
      fst (get_item E id (snd (patch_item E now id st)))
      = fst (patch_item E now id st)).
Proof.
  split; intros H.
  - destruct (put_item_updated _ _ _ _ _ H)
      as [old [s [c [Hf [Hs [Hc Heq]]]]]].
    assert (Hi : invalid_id id = false).
    { revert H. rewrite put_item_cases.
      destruct (invalid_id id); [discriminate|reflexivity]. }
    rewrite Heq, get_item_cases, Hi. simpl.
    rewrite (find_written E _ (fun r => updated now body c r s) _ old);
      auto.
  - destruct (patch_item_success _ _ _ _ H) as [old [Hi Hf]].
    rewrite (patch_item_toggled _ _ _ _ _ Hi Hf), get_item_cases, Hi.
    simpl.
    rewrite (find_written E _
               (fun r => Item.mk (Item.id r) (Item.name r)
                           (Item.description r)
                           (if Item.completed old =? 1 then 0 else 1)
                           (Item.due_date r) (Item.created_at r) now)
               _ old); auto.
Qed.

Lemma write_then_get_witness :
  status (fst (put_item Sample.engine 1001 "2" (Sample.named "y")
                 Sample.db0)) = 200
  /\ fst (get_item Sample.engine "2"
            (snd (put_item Sample.engine 1001 "2" (Sample.named "y")
                    Sample.db0)))
     = fst (put_item Sample.engine 1001 "2" (Sample.named "y") Sample.db0)
  /\ status (fst (patch_item Sample.engine 1001 "2" Sample.db0)) = 200
  /\ fst (get_item Sample.engine "2"
            (snd (patch_item Sample.engine 1001 "2" Sample.db0)))
     = fst (patch_item Sample.engine 1001 "2" Sample.db0).
Proof.
  split; [reflexivity|]. split; [|split; [reflexivity|]].
  - apply (proj1 (write_then_get Sample.engine 1001 "2" (Sample.named "y")
                    Sample.db0)).
    reflexivity.
  - apply (proj2 (write_then_get Sample.engine 1001 "2" (Sample.named "y")
                    Sample.db0)).
    reflexivity.
Defined.

(** X10. No partial writes. A request answered with a failure (400, 404 or
    500) leaves the rows and the sequence as they were; so does every
    read. *)
Theorem failure_writes_nothing E now r st :
  (failed (fst (handle E now r st)) ->
   rows (snd (handle E now r st)) = rows st
   /\ seq (snd (handle E now r st)) = seq st)
  /\ ((exists q, r = GetItems q) \/ (exists id, r = GetItem id) ->
      rows (snd (handle E now r st)) = rows st
      /\ seq (snd (handle E now r st)) = seq st).
Proof.
  unfold failed. split.
  - destruct r as [q|id|body|id body|id|id]; simpl.
    + intros _. destruct (get_items_status q st) as [H1 [H2 _]]. auto.
    + rewrite get_item_cases. destruct (invalid_id id); auto.
    + rewrite post_item_cases.
      destruct (name_missing _); auto.
      destruct (_ >? 200); auto.
      destruct (due_date_invalid _ _); auto. simpl. lia.
    + rewrite put_item_cases. destruct (invalid_id id); auto.
      destruct (find _ _); auto.
      destruct (name_missing _); auto.
      destruct (_ >? 200); auto.
      destruct (due_date_invalid _ _); auto. simpl. lia.
    + rewrite patch_item_cases. destruct (invalid_id id); auto.
      destruct (find _ _); auto. simpl. lia.
    + rewrite delete_item_cases. destruct (invalid_id id); auto.
      destruct (find _ _); auto. simpl. lia.
  - intros [[q ->]|[id ->]]; simpl.
    + destruct (get_items_status q st) as [H1 [H2 _]]. auto.
    + rewrite get_item_cases. destruct (invalid_id id); auto.
Qed.

Lemma failure_writes_nothing_witness :
  failed (fst (handle Sample.engine 1001
                 (PutItem "2" (Sample.due "x" (Js.Text "invalid-date")))
                 Sample.db0))
  /\ rows (snd (handle Sample.engine 1001
                  (PutItem "2" (Sample.due "x" (Js.Text "invalid-date")))
                  Sample.db0)) = rows Sample.db0
  /\ seq (snd (handle Sample.engine 1001
                 (PutItem "2" (Sample.due "x" (Js.Text "invalid-date")))
                 Sample.db0)) = seq Sample.db0.
Proof.
  assert (F : failed (fst (handle Sample.engine 1001
                 (PutItem "2" (Sample.due "x" (Js.Text "invalid-date")))
                 Sample.db0))).
  { unfold failed. simpl. lia. }
  split; [exact F|].
  apply (proj1 (failure_writes_nothing Sample.engine 1001
                  (PutItem "2" (Sample.due "x" (Js.Text "invalid-date")))
                  Sample.db0) F).
Defined.

(** X11. Ids are unique. In a reachable database no two rows have the
    same id, and every id lies between 1 and the sequence of
    AUTOINCREMENT. *)
Theorem reachable_ids_unique E t st :
  reachable E t st ->
  NoDup (map Item.id (rows st))
  /\ Forall (fun r => 1 <= Item.id r <= seq st) (rows st).
Proof.
  intros R. apply reachable_invariant in R. destruct R as [_ Hu H].
  split; [exact Hu|]. eapply Forall_impl; [|exact H].
  intros r [Hid _ _ _]. exact Hid.
Qed.

Lemma reachable_ids_unique_witness :
  reachable Sample.engine 1002
    (Sample.after 1002 (PostItem (Sample.named "y"))
       (Sample.after 1001 (DeleteItem "3") Sample.db0))
  /\ NoDup (map Item.id
              (rows (Sample.after 1002 (PostItem (Sample.named "y"))
                       (Sample.after 1001 (DeleteItem "3") Sample.db0)))).
Proof.
  assert (R : reachable Sample.engine 1002
                (Sample.after 1002 (PostItem (Sample.named "y"))
                   (Sample.after 1001 (DeleteItem "3") Sample.db0))).
  { apply reach_step with (t := 1001); [|lia].
    apply reach_step with (t := 1000); [|lia].
    apply reach_init. }
  split; [exact R|].
  apply (proj1 (reachable_ids_unique Sample.engine 1002 _ R)).
Defined.

Lemma Forall_written (P : Item.t -> Prop) (p : Item.t -> bool)
    (w : Item.t -> Item.t) l :
  (forall r, P r -> P (w r)) ->
  Forall P l -> Forall P (map (fun r => if p r then w r else r) l).
Proof.
  intros Hw F. rewrite Forall_map. eapply Forall_impl; [|exact F].
  intros r Hr. destruct (p r); auto.
Qed.

Lemma Forall_filtered {A} (P : A -> Prop) (p : A -> bool) l :
  Forall P l -> Forall P (List.filter p l).
Proof.
  intros F. rewrite Forall_forall in *. intros x Hx.
  apply filter_In in Hx. apply F, Hx.
Qed.

(** An id that is no more in the table, and was given, stays out. *)
Lemma absent_handle E now r st k :
  Forall (fun x => Item.id x <= seq st) (rows st) ->
  k <= seq st ->
  Forall (fun x => Item.id x <> k) (rows st) ->
  Forall (fun x => Item.id x <= seq (snd (handle E now r st)))
    (rows (snd (handle E now r st)))
  /\ k <= seq (snd (handle E now r st))
  /\ Forall (fun x => Item.id x <> k) (rows (snd (handle E now r st))).
Proof.
  intros Hb Hk Ha.
  destruct r as [q|id|body|id body|id|id]; simpl.
  - destruct (get_items_status q st) as [-> [-> _]]. auto.
  - rewrite get_item_cases. destruct (invalid_id id); auto.
  - rewrite post_item_cases.
    destruct (name_missing _); auto.
    destruct (_ >? 200); auto.
    destruct (due_date_invalid _ _); auto.
    simpl. split; [|split; [lia|]].
    + apply Forall_app. split.
      * eapply Forall_impl; [|exact Hb]. simpl. intros; lia.
      * repeat constructor. simpl. lia.
    + apply Forall_app. split; auto.
      repeat constructor. simpl. lia.
  - rewrite put_item_cases. destruct (invalid_id id); auto.
    destruct (find _ _); auto.
    destruct (name_missing _); auto.
    destruct (_ >? 200); auto.
    destruct (due_date_invalid _ _); auto.
    simpl. split; [|split; auto]; apply Forall_written; auto.
  - rewrite patch_item_cases. destruct (invalid_id id); auto.
    destruct (find _ _); auto.
    simpl. split; [|split; auto]; apply Forall_written; auto.
  - rewrite delete_item_cases. destruct (invalid_id id); auto.
    destruct (find _ _); auto.
    simpl. split; [|split; auto]; apply Forall_filtered; auto.
Qed.

Lemma absent_serve E reqs st k :
  Forall (fun x => Item.id x <= seq st) (rows st) ->
  k <= seq st ->
  Forall (fun x => Item.id x <> k) (rows st) ->
  Forall (fun x => Item.id x <> k) (rows (serve E reqs st)).
Proof.
  revert st. induction reqs as [|[now r] reqs IH]; intros st Hb Hk Ha; auto.
  simpl. destruct (absent_handle E now r st k Hb Hk Ha) as [H1 [H2 H3]].
  apply IH; assumption.
Qed.

Lemma id_is_denoted E id old r :
  rowid_of_text E id = Some (Item.id old) ->
  id_is E (Sql.PText id) r = (Item.id r =? Item.id old).
Proof. unfold id_is. simpl. intros ->. reflexivity. Qed.

(** X12. An id is never given again. In a reachable database, the delete of
    a row with an id that denotes it succeeds, and whatever requests are
    served afterwards, creates included, no row of the table has the id of
    the deleted row. *)
Theorem deleted_id_not_reused E t st id old reqs :
  reachable E t st ->
  In old (rows st) ->
  denotes E id old ->
  status (fst (delete_item E id st)) = 200
  /\ Forall (fun r => Item.id r <> Item.id old)
       (rows (serve E reqs (snd (delete_item E id st)))).
Proof.
  intros R Hin D. apply reachable_invariant in R.
  destruct (find_denoted _ _ _ _ _ R Hin D) as [Hi Hf].
  destruct D as [_ Hr].
  destruct R as [_ _ Hok].
  rewrite delete_item_cases, Hi, Hf. simpl. split; [reflexivity|].
  apply absent_serve; simpl.
  - apply Forall_filtered. eapply Forall_impl; [|exact Hok].
    intros r [Hid _ _ _]. lia.
  - rewrite Forall_forall in Hok. destruct (Hok _ Hin) as [Hid _ _ _]. lia.
  - rewrite Forall_forall. intros r Hx. apply filter_In in Hx.
    destruct Hx as [_ Hx]. rewrite (id_is_denoted E id old r Hr) in Hx.
    apply negb_true_iff, Z.eqb_neq in Hx. exact Hx.
Qed.

Lemma deleted_id_not_reused_witness :
  reachable Sample.engine 1000 Sample.db0
  /\ In Sample.task2 (rows Sample.db0)
  /\ denotes Sample.engine "2" Sample.task2
  /\ status (fst (delete_item Sample.engine "2" Sample.db0)) = 200
  /\ Forall (fun r => Item.id r <> 2)
       (rows (serve Sample.engine
                [(1001, PostItem (Sample.named "x"));
                 (1002, PostItem (Sample.named "y"))]
                (snd (delete_item Sample.engine "2" Sample.db0)))).
Proof.
  assert (R : reachable Sample.engine 1000 Sample.db0) by apply reach_init.
  assert (I : In Sample.task2 (rows Sample.db0))
    by (right; left; reflexivity).
  assert (D : denotes Sample.engine "2" Sample.task2)
    by (split; [discriminate|reflexivity]).
  split; [exact R|]. split; [exact I|]. split; [exact D|].
  apply (deleted_id_not_reused Sample.engine 1000 Sample.db0 "2"
           Sample.task2
           [(1001, PostItem (Sample.named "x"));
            (1002, PostItem (Sample.named "y"))] R I D).
Defined.

Lemma trimmed_tidy v :
  name_missing v = false ->
  (Z.of_nat (String.length (trimmed v)) >? 200) = false ->
  tidy_name (trimmed v).
Proof.
  intros Hn Hl. destruct (name_checked _ Hn) as [s [-> Ht]].
  rewrite name_missing_str in Hn. apply String.eqb_neq in Hn.
  rewrite Ht in *. split; [exact Hn|]. split; [apply trim_twice|].
  destruct (Z.gtb_spec (Z.of_nat (String.length (Js.trim s))) 200);
    [discriminate|lia].
Qed.

Lemma tidy_handle E now r st :
  Forall (fun x => tidy_name (Item.name x)) (rows st) ->
  Forall (fun x => tidy_name (Item.name x)) (rows (snd (handle E now r st))).
Proof.
  intros F.
  destruct r as [q|id|body|id body|id|id]; simpl.
  - destruct (get_items_status q st) as [-> _]. exact F.
  - rewrite get_item_cases. destruct (invalid_id id); auto.
  - rewrite post_item_cases.
    destruct (name_missing _) eqn:Hn; auto.
    destruct (_ >? 200) eqn:Hl; auto.
    destruct (due_date_invalid _ _); auto.
    simpl. apply Forall_app. split; auto.
    constructor; [|constructor]. simpl. apply trimmed_tidy; assumption.
  - rewrite put_item_cases. destruct (invalid_id id); auto.
    destruct (find _ _); auto.
    destruct (name_missing _) eqn:Hn; auto.
    destruct (_ >? 200) eqn:Hl; auto.
    destruct (due_date_invalid _ _); auto.
    simpl. rewrite Forall_map. eapply Forall_impl; [|exact F].
    intros x Hx. destruct (id_is E (Sql.PText id) x); auto.
    simpl. apply trimmed_tidy; assumption.
  - rewrite patch_item_cases. destruct (invalid_id id); auto.
    destruct (find _ _); auto.
    simpl. apply Forall_written; auto.
  - rewrite delete_item_cases. destruct (invalid_id id); auto.
    destruct (find _ _); auto.
    simpl. apply Forall_filtered; auto.
Qed.

(** X13. Names are kept tidy. In a reachable database the name of every
    row is not empty, has no white space at either end (trimming it
    changes nothing) and has 200 characters at most. *)
Theorem names_tidy E t st :
  reachable E t st ->
  Forall (fun r => tidy_name (Item.name r)) (rows st).
Proof.
  induction 1 as [now due1 due3|t st now r R IH Ht].
  - repeat constructor; simpl; try discriminate; lia.
  - apply tidy_handle. exact IH.
Qed.

Lemma names_tidy_witness :
  reachable Sample.engine 1001
    (Sample.after 1001 (PostItem (Sample.named "  padded  ")) Sample.db0)
  /\ Forall (fun r => tidy_name (Item.name r))
       (rows (Sample.after 1001 (PostItem (Sample.named "  padded  "))
                Sample.db0)).
Proof.
  assert (R : reachable Sample.engine 1001
                (Sample.after 1001 (PostItem (Sample.named "  padded  "))
                   Sample.db0)).
  { apply reach_step with (t := 1000); [|lia]. apply reach_init. }
  split; [exact R|].
  apply (names_tidy Sample.engine 1001 _ R).
Defined.

Lemma others_written k (p : Item.t -> bool) (w : Item.t -> Item.t) l :
  (forall r, p r = (Item.id r =? k)) ->
  (forall r, Item.id (w r) = Item.id r) ->
  others k (map (fun r => if p r then w r else r) l) = others k l.
Proof.
  intros Hp Hw. unfold others.
  induction l as [|x l IH]; simpl; auto.
  rewrite Hp. destruct (Item.id x =? k) eqn:Hx; simpl.
  - rewrite Hw, Hx. simpl. exact IH.
  - rewrite Hx. simpl. f_equal. exact IH.
Qed.

Lemma others_absent k l :
  ~ In k (map Item.id l) -> others k l = l.
Proof.
  unfold others. induction l as [|x l IH]; simpl; auto.
  intros H. destruct (Z.eqb_spec (Item.id x) k) as [Hx|Hx]; [tauto|].
  simpl. f_equal. apply IH. tauto.
Qed.

Lemma others_length l old :
  NoDup (map Item.id l) -> In old l ->
  (List.length (others (Item.id old) l) + 1 = List.length l)%nat.
Proof.
  induction l as [|x l IH]; simpl; [tauto|].
  intros Hn [->|Hin]; inversion Hn as [|? ? Hx Hl]; subst.
  - unfold others. simpl. rewrite Z.eqb_refl. simpl.
    fold (others (Item.id old) l). rewrite others_absent by exact Hx. lia.
  - unfold others. simpl.
    destruct (Z.eqb_spec (Item.id x) (Item.id old)) as [He|He].
    + exfalso. apply Hx. rewrite He. apply in_map. exact Hin.
    + simpl. fold (others (Item.id old) l). rewrite <- (IH Hl Hin). lia.
Qed.

(** X14. A write touches one row. In a reachable database, for a row and an
    id that denotes it: a successful update and a toggle leave every other
    row as it was and keep the ids of the table in their order; a delete
    leaves exactly the other rows, one row fewer. *)
Theorem write_touches_one_row E t st now id body old :
  reachable E t st ->
  In old (rows st) ->
  denotes E id old ->
  (status (fst (put_item E now id body st)) = 200 ->
   others (Item.id old) (rows (snd (put_item E now id body st)))
   = others (Item.id old) (rows st)
   /\ map Item.id (rows (snd (put_item E now id body st)))
      = map Item.id (rows st))
  /\ (others (Item.id old) (rows (snd (patch_item E now id st)))
      = others (Item.id old) (rows st)
      /\ map Item.id (rows (snd (patch_item E now id st)))
         = map Item.id (rows st))
  /\ (rows (snd (delete_item E id st)) = others (Item.id old) (rows st)
      /\ (List.length (rows (snd (delete_item E id st))) + 1
          = List.length (rows st))%nat).
Proof.
  intros R Hin D. apply reachable_invariant in R.
  destruct (find_denoted _ _ _ _ _ R Hin D) as [Hi Hf].
  destruct D as [_ Hr].
  pose proof (id_is_denoted E id old) as Hp.
  split; [|split].
  - intros H. destruct (put_item_updated _ _ _ _ _ H)
      as [old' [s [c [_ [_ [_ Heq]]]]]].
    rewrite Heq. simpl. split.
    + apply others_written; auto.
    + apply map_id_write. reflexivity.
  - rewrite (patch_item_toggled _ _ _ _ _ Hi Hf). simpl. split.
    + apply (others_written _ _
               (fun r => Item.mk (Item.id r) (Item.name r)
                           (Item.description r)
                           (if Item.completed old =? 1 then 0 else 1)
                           (Item.due_date r) (Item.created_at r) now));
        auto.
    + apply (map_id_write _
               (fun r => Item.mk (Item.id r) (Item.name r)
                           (Item.description r)
                           (if Item.completed old =? 1 then 0 else 1)
                           (Item.due_date r) (Item.created_at r) now)).
      reflexivity.
  - rewrite delete_item_cases, Hi, Hf. simpl.
    assert (He : List.filter (fun r => negb (id_is E (Sql.PText id) r))
                   (rows st) = others (Item.id old) (rows st)).
    { unfold others. apply filter_ext. intros r. rewrite Hp; auto. }
    rewrite He. split; [reflexivity|].
    apply others_length; auto. destruct R as [_ Hu _]. exact Hu.
Qed.

Lemma write_touches_one_row_witness :
  reachable Sample.engine 1000 Sample.db0
  /\ In Sample.task2 (rows Sample.db0)
  /\ denotes Sample.engine "2" Sample.task2
  /\ others 2 (rows (snd (put_item Sample.engine 1001 "2" (Sample.named "y")
                            Sample.db0)))
     = others 2 (rows Sample.db0)
  /\ rows (snd (delete_item Sample.engine "2" Sample.db0))
     = others 2 (rows Sample.db0).
Proof.
  assert (R : reachable Sample.engine 1000 Sample.db0) by apply reach_init.
  assert (I : In Sample.task2 (rows Sample.db0))
    by (right; left; reflexivity).
  assert (D : denotes Sample.engine "2" Sample.task2)
    by (split; [discriminate|reflexivity]).
  destruct (write_touches_one_row Sample.engine 1000 Sample.db0 1001 "2"
              (Sample.named "y") Sample.task2 R I D) as [P [_ [Q _]]].
  split; [exact R|]. split; [exact I|]. split; [exact D|].
  split; [apply (proj1 (P eq_refl))|exact Q].
Defined.

Lemma put_item_reads_rows E now id body st st' :
  rows st' = rows st ->
  fst (put_item E now id body st') = fst (put_item E now id body st)
  /\ rows (snd (put_item E now id body st'))
     = rows (snd (put_item E now id body st)).
Proof.
  intros H. rewrite !put_item_cases, H.
  destruct (invalid_id id); [auto|].
  destruct (find _ _); [|auto].
  destruct (name_missing _); [auto|].
  destruct (_ >? 200); [auto|].
  destruct (due_date_invalid _ _); auto.
Qed.

(** X15. An update replaces the item. The answer of a successful update
    and the rows it leaves are the same whether or not another update of
    the same id, successful or not, was served just before: nothing of an
    earlier name, description, flag or due date survives. *)
Theorem put_item_replaces E now1 now2 id body1 body2 st :
  status (fst (put_item E now2 id body2 st)) = 200 ->
  fst (put_item E now2 id body2 (snd (put_item E now1 id body1 st)))
  = fst (put_item E now2 id body2 st)
  /\ rows (snd (put_item E now2 id body2 (snd (put_item E now1 id body1 st))))
     = rows (snd (put_item E now2 id body2 st)).
Proof.
  intros H2.
  destruct (Z.eq_dec (status (fst (put_item E now1 id body1 st))) 200)
    as [H1|H1].
  - destruct (put_item_updated _ _ _ _ _ H1)
      as [old [s1 [c1 [Hf [_ [_ Heq1]]]]]].
    rewrite Heq1. cbn [snd].
    revert H2. rewrite !put_item_cases. cbn [rows seq log].
    destruct (invalid_id id); [discriminate|].
    rewrite (find_written E _ (fun r => updated now1 body1 c1 r s1) _ old)
      by auto.
    rewrite Hf.
    destruct (name_missing _); [discriminate|].
    destruct (_ >? 200); [discriminate|].
    destruct (due_date_invalid _ _); [discriminate|].
    intros _. cbn [fst snd rows]. split; [reflexivity|].
    rewrite map_map. apply map_ext. intros r.
    destruct (id_is E (Sql.PText id) r) eqn:Hr.
    + assert (Hr' : id_is E (Sql.PText id) (updated now1 body1 c1 r s1)
                    = true).
      { rewrite <- Hr. unfold id_is.
        destruct (rowid_of_param E (Sql.PText id)); reflexivity. }
      rewrite Hr'. reflexivity.
    + rewrite Hr. reflexivity.
  - destruct (put_item_rejected _ _ _ _ _ H1) as [_ Hr].
    apply put_item_reads_rows. exact Hr.
Qed.

Lemma put_item_replaces_witness :
  status (fst (put_item Sample.engine 1002 "2" (Sample.named "second")
                 Sample.db0)) = 200
  /\ rows (snd (put_item Sample.engine 1002 "2" (Sample.named "second")
                  (snd (put_item Sample.engine 1001 "2"
                          (Sample.described "first") Sample.db0))))
     = rows (snd (put_item Sample.engine 1002 "2" (Sample.named "second")
                    Sample.db0)).
Proof.
  split; [reflexivity|].
  apply (proj2 (put_item_replaces Sample.engine 1001 1002 "2"
                  (Sample.described "first") (Sample.named "second")
                  Sample.db0 eq_refl)).
Defined.

(* ================================================================== *)
(** ** Further properties: the front end *)
(* ================================================================== *)

Lemma truthy_trim n :
  Js.truthy (Js.Str (Js.trim n)) = negb (name_missing (Js.Str n)).
Proof. rewrite name_missing_str. reflexivity. Qed.

(** X16. The dialog and the server check the name alike. When [validate]
    sets an error on a name, a create with that name is answered 400 with
    the same message and writes nothing; when it sets none, the name passes
    the checks of the server. *)
Theorem dialog_validation_agrees E now f body st :
  Body.name body = Js.Str (ItemDialog.name f) ->
  match ItemDialog.validate f with
  | Some m =>
      post_item E now body st = ({| status := 400; json := JError m |}, st)
  | None => good_name (Body.name body)
  end.
Proof.
  intros Hn. unfold ItemDialog.validate. rewrite post_item_cases, Hn.
  rewrite truthy_trim, negb_involutive.
  destruct (name_missing (Js.Str (ItemDialog.name f))) eqn:Hm;
    [reflexivity|].
  change (trimmed (Js.Str (ItemDialog.name f)))
    with (Js.trim (ItemDialog.name f)).
  destruct (Z.gtb_spec
              (Z.of_nat (String.length (Js.trim (ItemDialog.name f)))) 200)
    as [Hl|Hl]; [reflexivity|].
  exists (String.length (Js.trim (ItemDialog.name f))). split; [|lia].
  exists (ItemDialog.name f). split; [reflexivity|]. split; [|reflexivity].
  rewrite name_missing_str in Hm. apply String.eqb_neq. exact Hm.
Qed.

Lemma dialog_validation_agrees_witness :
  Body.name (Sample.named "   ")
  = Js.Str (ItemDialog.name (ItemDialog.Build_formData "   " "" None))
  /\ post_item Sample.engine 1001 (Sample.named "   ") Sample.db0
     = ({| status := 400; json := JError "Item name is required" |},
        Sample.db0).
Proof.
  split; [reflexivity|].
  apply (dialog_validation_agrees Sample.engine 1001
           (ItemDialog.Build_formData "   " "" None)
           (Sample.named "   ") Sample.db0 eq_refl).
Defined.

Lemma handleSubmit_body item f body :
  ItemDialog.handleSubmit item f = Some body ->
  ItemDialog.validate f = None
  /\ Body.name body = Js.Str (Js.trim (ItemDialog.name f))
  /\ Js.or_null (Body.description body)
     = (if (Js.trim (ItemDialog.description f) =? "")%string
        then None else Some (Js.trim (ItemDialog.description f)))
  /\ Body.completed body
     = match item with
       | Some item => Js.Number (Item.completed item)
       | None => Js.Undefined
       end
  /\ Body.due_date body
     = match ItemDialog.due_date f with
       | Some iso => Js.Text iso
       | None => Js.NoText
       end.
Proof.
  unfold ItemDialog.handleSubmit.
  destruct (ItemDialog.validate f); [discriminate|].
  intros H. injection H as <-. simpl.
  repeat split.
  destruct (Js.trim (ItemDialog.description f) =? "")%string eqn:Hd;
    simpl; rewrite ?Hd; reflexivity.
Qed.

Lemma validate_passes f :
  ItemDialog.validate f = None ->
  name_missing (Js.Str (Js.trim (ItemDialog.name f))) = false
  /\ (Z.of_nat (String.length (trimmed (Js.Str (Js.trim (ItemDialog.name f)))))
      >? 200) = false.
Proof.
  unfold ItemDialog.validate. rewrite truthy_trim, negb_involutive.
  rewrite !name_missing_str.
  change (trimmed (Js.Str (Js.trim (ItemDialog.name f))))
    with (Js.trim (Js.trim (ItemDialog.name f))).
  rewrite !trim_twice.
  destruct (Js.trim (ItemDialog.name f) =? "")%string; [discriminate|].
  destruct (_ >? 200); [discriminate|]. auto.
Qed.

Lemma due_date_of_form E (d : option string) :
  (forall iso, d = Some iso -> iso <> "" /\ date_valid E iso = true) ->
  due_date_invalid E
    match d with Some iso => Js.Text iso | None => Js.NoText end = false
  /\ Js.or_null
       match d with Some iso => Js.Text iso | None => Js.NoText end = d.
Proof.
  intros H. destruct d as [iso|]; [|auto].
  destruct (H iso eq_refl) as [Hne Hv]. simpl. rewrite Hv.
  apply String.eqb_neq in Hne. rewrite Hne. auto.
Qed.

(** X17. What the dialog saves, the server stores. In a reachable
    database, the runtime parsing the due date of the form, a create with
    the body [handleSubmit] passes on is answered 201 with an item that has
    the trimmed name of the form, its trimmed description (NULL when that
    is empty), its due date, [completed] 0 and the time of the request in
    both timestamps. *)
Theorem dialog_create_stored E t st now f body :
  reachable E t st ->
  ItemDialog.handleSubmit None f = Some body ->
  (forall iso, ItemDialog.due_date f = Some iso ->
     iso <> "" /\ date_valid E iso = true) ->
  exists r,
    fst (post_item E now body st) = {| status := 201; json := JItem r |}
    /\ In r (rows (snd (post_item E now body st)))
    /\ Item.name r = Js.trim (ItemDialog.name f)
    /\ Item.description r
       = (if (Js.trim (ItemDialog.description f) =? "")%string
          then None else Some (Js.trim (ItemDialog.description f)))
    /\ Item.due_date r = ItemDialog.due_date f
    /\ Item.completed r = 0
    /\ Item.created_at r = now /\ Item.updated_at r = now.
Proof.
  intros R Hs Hd. apply reachable_invariant in R.
  destruct (handleSubmit_body _ _ _ Hs) as [Hv [Hn [Hdesc [_ Hdue]]]].
  destruct (validate_passes _ Hv) as [Hm Hl].
  destruct (due_date_of_form E _ Hd) as [Hi Ho].
  assert (H201 : status (fst (post_item E now body st)) = 201).
  { rewrite post_item_cases, Hn, Hm, Hl, Hdue, Hi. reflexivity. }
  destruct (post_item_created _ _ _ _ _ R H201) as [s [Hs' Heq]].
  rewrite Heq. simpl. eexists. split; [reflexivity|].
  split; [apply in_or_app; right; left; reflexivity|].
  simpl. rewrite Hn in Hs'. injection Hs' as <-.
  rewrite trim_twice, Hdesc, Hdue, Ho. repeat split; reflexivity.
Qed.

Lemma dialog_create_stored_witness :
  reachable Sample.engine 1000 Sample.db0
  /\ exists r,
       fst (post_item Sample.engine 1001
              (Body.mk (Js.Str "buy milk") (Js.Text "two litres")
                 Js.Undefined (Js.Text "2024-05-01T00:00:00.000Z"))
              Sample.db0)
       = {| status := 201; json := JItem r |}
       /\ Item.name r = "buy milk"
       /\ Item.description r = Some "two litres"
       /\ Item.due_date r = Some "2024-05-01T00:00:00.000Z".
Proof.
  assert (R : reachable Sample.engine 1000 Sample.db0) by apply reach_init.
  split; [exact R|].
  destruct (dialog_create_stored Sample.engine 1000 Sample.db0 1001
              (ItemDialog.Build_formData "  buy milk " " two litres  "
                 (Some "2024-05-01T00:00:00.000Z"))
              _ R eq_refl) as [r [H1 [_ [H3 [H4 [H5 _]]]]]].
  - intros iso H. injection H as <-. split; [discriminate|reflexivity].
  - exists r. split; [exact H1|]. split; [exact H3|].
    split; [exact H4|exact H5].
Defined.

(** X18. An edit in the dialog keeps the completion flag. In a reachable
    database, for an item of the table and an id that denotes it, the
    update with the body [handleSubmit] passes on for that item is
    answered 200 with an item that has the same id, creation time and
    [completed] as before, the trimmed name of the form, and the time of
    the request as [updated_at]. *)
Theorem dialog_edit_keeps_completed E t st now f body id old :
  reachable E t st ->
  In old (rows st) ->
  denotes E id old ->
  ItemDialog.handleSubmit (Some old) f = Some body ->
  (forall iso, ItemDialog.due_date f = Some iso ->
     iso <> "" /\ date_valid E iso = true) ->
  exists r,
    fst (put_item E now id body st) = {| status := 200; json := JItem r |}
    /\ In r (rows (snd (put_item E now id body st)))
    /\ Item.id r = Item.id old
    /\ Item.completed r = Item.completed old
    /\ Item.created_at r = Item.created_at old
    /\ Item.updated_at r = now
    /\ Item.name r = Js.trim (ItemDialog.name f)
    /\ Item.due_date r = ItemDialog.due_date f.
Proof.
  intros R Hin D Hs Hd. apply reachable_invariant in R.
  destruct (find_denoted _ _ _ _ _ R Hin D) as [Hi Hf].
  destruct (handleSubmit_body _ _ _ Hs) as [Hv [Hn [_ [Hc Hdue]]]].
  destruct (validate_passes _ Hv) as [Hm Hl].
  destruct (due_date_of_form E _ Hd) as [Hiv Ho].
  assert (Hflag : Item.completed old = 0 \/ Item.completed old = 1).
  { destruct R as [_ _ H]. rewrite Forall_forall in H.
    destruct (H _ Hin) as [_ Hk _ _]. exact Hk. }
  rewrite put_item_cases, Hi, Hf, Hn, Hm, Hl, Hdue, Hiv, Hc. cbv zeta.
  eexists. split; [reflexivity|].
  assert (Hp : id_is E (Sql.PText id) old = true)
    by (apply find_some in Hf; tauto).
  split.
  - cbn [snd rows].
    apply (in_written _
             (fun r => Item.mk (Item.id r)
                         (trimmed (Js.Str (Js.trim (ItemDialog.name f))))
                         (Js.or_null (Body.description body))
                         (if Js.strict_eq_true
                               (Js.Number (Item.completed old))
                             || Js.strict_eq_one
                                  (Js.Number (Item.completed old))
                          then 1 else 0)
                         (Js.or_null
                            match ItemDialog.due_date f with
                            | Some iso => Js.Text iso
                            | None => Js.NoText
                            end)
                         (Item.created_at r) now)); auto.
  - cbn [Item.id Item.completed Item.created_at Item.updated_at Item.name
         Item.due_date trimmed Js.as_string].
    rewrite trim_twice, Ho. repeat split; try reflexivity.
    destruct Hflag as [-> | ->]; reflexivity.
Qed.

Lemma dialog_edit_keeps_completed_witness :
  reachable Sample.engine 1000 Sample.db0
  /\ In Sample.task2 (rows Sample.db0)
  /\ denotes Sample.engine "2" Sample.task2
  /\ exists r,
       fst (put_item Sample.engine 1001 "2"
              (Body.mk (Js.Str "renamed") Js.NoText (Js.Number 1) Js.NoText)
              Sample.db0)
       = {| status := 200; json := JItem r |}
       /\ Item.completed r = 1
       /\ Item.name r = "renamed".
Proof.
  assert (R : reachable Sample.engine 1000 Sample.db0) by apply reach_init.
  assert (I : In Sample.task2 (rows Sample.db0))
    by (right; left; reflexivity).
  assert (D : denotes Sample.engine "2" Sample.task2)
    by (split; [discriminate|reflexivity]).
  split; [exact R|]. split; [exact I|]. split; [exact D|].
  destruct (dialog_edit_keeps_completed Sample.engine 1000 Sample.db0 1001
              (ItemDialog.Build_formData " renamed " "" None)
              _ "2" Sample.task2 R I D eq_refl)
    as [r [H1 [_ [_ [H4 [_ [_ [H7 _]]]]]]]].
  - intros iso H. discriminate H.
  - exists r. split; [exact H1|]. split; [exact H4|exact H7].
Defined.

Lemma same_id_same_row l a b :
  NoDup (map Item.id l) -> In a l -> In b l -> Item.id a = Item.id b -> a = b.
Proof.
  induction l as [|x l IH]; simpl; [tauto|].
  intros Hn Ha Hb He. inversion Hn as [|? ? Hx Hl]; subst.
  destruct Ha as [->|Ha], Hb as [->|Hb]; auto.
  - exfalso. apply Hx. rewrite He. apply in_map. exact Hb.
  - exfalso. apply Hx. rewrite <- He. apply in_map. exact Ha.
Qed.

Lemma reads_as_checks E id k :
  reads_as E id k ->
  invalid_id id = false
  /\ forall r, id_is E (Sql.PText id) r = (Item.id r =? k).
Proof.
  intros [Hp Hr]. split.
  - destruct (Js.parseInt id) eqn:H; [|congruence].
    eapply invalid_id_false; eauto.
  - intros r. unfold id_is. simpl. rewrite Hr. reflexivity.
Qed.

(** The rows with the id [k] being [old] alone, writing [w r] over them is
    putting [w old] in their place. *)
Lemma written_as_replaced E id k (w : Item.t -> Item.t) old l :
  (forall r, id_is E (Sql.PText id) r = (Item.id r =? k)) ->
  NoDup (map Item.id l) -> In old l -> Item.id old = k ->
  map (fun r => if id_is E (Sql.PText id) r then w r else r) l
  = map (fun item => if Item.id item =? k then w old else item) l.
Proof.
  intros Hp Hn Hin Hk. apply map_ext_in. intros r Hr. rewrite Hp.
  destruct (Z.eqb_spec (Item.id r) k) as [He|He]; auto.
  f_equal. apply (same_id_same_row l); auto. congruence.
Qed.

(** X19. The list shown follows the table. In a reachable database, when
    the items the hook holds are the rows of the table in some order, they
    still are after a create, an update, a toggle or a delete has been
    served and the hook has taken in the response, whether the request
    succeeded or failed; the id the hook compares with is the one the text
    of the URL is read as. *)
Theorem client_follows_table E t st h now :
  reachable E t st ->
  in_sync h st ->
  (forall body,
     exists h',
       UseItems.createItem (fst (post_item E now body st)) h = Some h'
       /\ in_sync h' (snd (post_item E now body st)))
  /\ (forall id k body,
        reads_as E id k ->
        exists h',
          UseItems.updateItem k (fst (put_item E now id body st)) h = Some h'
          /\ in_sync h' (snd (put_item E now id body st)))
  /\ (forall id k,
        reads_as E id k ->
        exists h',
          UseItems.toggleComplete k (fst (patch_item E now id st)) h
          = Some h'
          /\ in_sync h' (snd (patch_item E now id st)))
  /\ (forall id k,
        reads_as E id k ->
        in_sync (UseItems.deleteItem k (fst (delete_item E id st)) h)
          (snd (delete_item E id st))).
Proof.
  intros R S. apply reachable_invariant in R. unfold in_sync in *.
  split; [|split; [|split]].
  - intros body. rewrite post_item_cases.
    destruct (name_missing _); [eexists; split; [reflexivity|exact S]|].
    destruct (_ >? 200); [eexists; split; [reflexivity|exact S]|].
    destruct (due_date_invalid _ _);
      [eexists; split; [reflexivity|exact S]|].
    cbv zeta. rewrite find_last_only;
      [|eapply ids_not_next; eauto|simpl; apply Z.eqb_refl].
    eexists. split; [reflexivity|]. simpl.
    rewrite S. apply Permutation_cons_append.
  - intros id k body Hr. destruct (reads_as_checks _ _ _ Hr) as [Hi Hp].
    rewrite put_item_cases, Hi.
    destruct (find _ _) as [old|] eqn:Hf;
      [|eexists; split; [reflexivity|exact S]].
    destruct (name_missing _); [eexists; split; [reflexivity|exact S]|].
    destruct (_ >? 200); [eexists; split; [reflexivity|exact S]|].
    destruct (due_date_invalid _ _);
      [eexists; split; [reflexivity|exact S]|].
    cbv zeta. eexists. split; [reflexivity|]. simpl.
    apply find_some in Hf. destruct Hf as [Hin Hk].
    rewrite Hp in Hk. apply Z.eqb_eq in Hk.
    destruct R as [_ Hu _].
    rewrite (written_as_replaced E id k _ old (rows st) Hp Hu Hin Hk).
    apply Permutation_map. exact S.
  - intros id k Hr. destruct (reads_as_checks _ _ _ Hr) as [Hi Hp].
    rewrite patch_item_cases, Hi.
    destruct (find _ _) as [old|] eqn:Hf;
      [|eexists; split; [reflexivity|exact S]].
    cbv zeta. eexists. split; [reflexivity|]. simpl.
    apply find_some in Hf. destruct Hf as [Hin Hk].
    rewrite Hp in Hk. apply Z.eqb_eq in Hk.
    destruct R as [_ Hu _].
    rewrite (written_as_replaced E id k
               (fun r => Item.mk (Item.id r) (Item.name r)
                           (Item.description r)
                           (if Item.completed old =? 1 then 0 else 1)
                           (Item.due_date r) (Item.created_at r) now)
               old (rows st) Hp Hu Hin Hk).
    apply Permutation_map. exact S.
  - intros id k Hr. destruct (reads_as_checks _ _ _ Hr) as [Hi Hp].
    rewrite delete_item_cases, Hi.
    destruct (find _ _) as [old|]; [|exact S].
    simpl.
    rewrite (filter_ext (fun r => negb (id_is E (Sql.PText id) r))
               (fun item => negb (Item.id item =? k)))
      by (intros r; rewrite Hp; reflexivity).
    apply filter_perm. exact S.
Qed.

Lemma client_follows_table_witness :
  reachable Sample.engine 1000 Sample.db0
  /\ in_sync (UseItems.Build_state (rev (rows Sample.db0)) false None)
       Sample.db0
  /\ reads_as Sample.engine "2" 2
  /\ in_sync
       (UseItems.deleteItem 2 (fst (delete_item Sample.engine "2" Sample.db0))
          (UseItems.Build_state (rev (rows Sample.db0)) false None))
       (snd (delete_item Sample.engine "2" Sample.db0)).
Proof.
  assert (R : reachable Sample.engine 1000 Sample.db0) by apply reach_init.
  assert (S : in_sync (UseItems.Build_state (rev (rows Sample.db0)) false None)
                Sample.db0).
  { unfold in_sync. simpl UseItems.items. symmetry. apply Permutation_rev. }
  assert (A : reads_as Sample.engine "2" 2)
    by (split; [discriminate|reflexivity]).
  split; [exact R|]. split; [exact S|]. split; [exact A|].
  apply (proj2 (proj2 (proj2 (client_follows_table Sample.engine 1000
                                Sample.db0 _ 1001 R S))) "2" 2 A).
Defined.

(** X20. A fetch brings the list in line. When [GET /api/items] is asked
    without completion filter ("all", as the page sends it, or none) and
    without search, and [sort] is not the name of an inherited member, the
    hook ends with the rows of the table, not loading and without error. *)
Theorem fetch_brings_in_sync q st h :
  ~ inherited_sort (Query.sort q) ->
  Query.filter q = Some "all" \/ Query.filter q = None ->
  Query.search q = None ->
  exists h',
    UseItems.fetchItems (fst (get_items q st)) h = Some h'
    /\ in_sync h' st
    /\ UseItems.loading h' = false
    /\ UseItems.error h' = None.
Proof.
  intros Hi Hf Hs.
  destruct (getSortClause_some _ (Query.order q) Hi) as [cl Hc].
  rewrite (get_items_clause _ _ _ Hc). simpl.
  eexists. split; [reflexivity|]. split; [|split; reflexivity].
  unfold in_sync. simpl. rewrite Hs.
  destruct Hf as [-> | ->]; simpl; apply order_by_perm.
Qed.

Lemma fetch_brings_in_sync_witness :
  ~ inherited_sort (Some "created")
  /\ exists h',
       UseItems.fetchItems
         (fst (get_items (Query.mk (Some "created") (Some "desc")
                            (Some "all") None) Sample.db0))
         (UseItems.Build_state [] true None) = Some h'
       /\ in_sync h' Sample.db0
       /\ UseItems.loading h' = false
       /\ UseItems.error h' = None.
Proof.
  assert (N : ~ inherited_sort (Some "created")).
  { intros H. apply inherited_test in H. discriminate H. }
  split; [exact N|].
  apply (fetch_brings_in_sync
           (Query.mk (Some "created") (Some "desc") (Some "all") None)
           Sample.db0 (UseItems.Build_state [] true None) N
           (or_introl eq_refl) eq_refl).
Defined.

Lemma hyphenless_cons c s :
  hyphenless (String c s) -> c <> "-"%char /\ hyphenless s.
Proof.
  unfold hyphenless. intros H. split.
  - intros ->. apply (H "" s). reflexivity.
  - intros a b ->. apply (H (String c a) b). reflexivity.
Qed.

Lemma split_hyphenless s :
  hyphenless s -> FilterSort.split "-" s = [s].
Proof.
  induction s as [|c s IH]; intros H; [reflexivity|].
  apply hyphenless_cons in H. destruct H as [Hc Hs]. simpl.
  apply Ascii.eqb_neq in Hc. rewrite Hc, (IH Hs). reflexivity.
Qed.

Lemma split_at_hyphen a b :
  hyphenless a ->
  FilterSort.split "-" (a ++ String "-" b) = a :: FilterSort.split "-" b.
Proof.
  induction a as [|c a IH]; intros H; [reflexivity|].
  apply hyphenless_cons in H. destruct H as [Hc Ha].
  change (String c a ++ String "-" b) with (String c (a ++ String "-" b)).
  cbn [FilterSort.split].
  apply Ascii.eqb_neq in Hc. rewrite Hc, (IH Ha). reflexivity.
Qed.

(** X21. The select of the sort reads its own values back. For a sort and
    an order without hyphen (as "created", "date", "name" and "asc",
    "desc" are), splitting the value [`${sort}-${order}`] gives back the
    sort and the order. *)
Theorem sort_select_round_trip sort order :
  hyphenless sort -> hyphenless order ->
  FilterSort.onChange (FilterSort.value sort order)
  = (Some sort, Some order).
Proof.
  intros Hs Ho. unfold FilterSort.onChange, FilterSort.value.
  change (sort ++ "-" ++ order) with (sort ++ String "-" order).
  rewrite (split_at_hyphen _ _ Hs), (split_hyphenless _ Ho). reflexivity.
Qed.

Lemma hyphenless_test s :
  Js.includes s "-" = false -> hyphenless s.
Proof.
  intros H a b Hs.
  assert (O : occurs "-" s) by (exists a, b; exact Hs).
  apply includes_occurs in O. congruence.
Qed.

Lemma sort_select_round_trip_witness :
  hyphenless "created" /\ hyphenless "desc"
  /\ FilterSort.onChange (FilterSort.value "created" "desc")
     = (Some "created", Some "desc").
Proof.
  assert (Hs : hyphenless "created") by (apply hyphenless_test; reflexivity).
  assert (Ho : hyphenless "desc") by (apply hyphenless_test; reflexivity).
  split; [exact Hs|]. split; [exact Ho|].
  apply (sort_select_round_trip "created" "desc" Hs Ho).
Defined.

(** X22. The list sorted by name is in the order of the bytes of the
    names, capitals before small letters: ascending for [order=asc],
    descending for every other order. It holds the rows that pass the
    filters. *)
Theorem get_items_in_byte_order q st :
  Query.sort q = Some "name" ->
  exists l,
    fst (get_items q st) = {| status := 200; json := JItems l |}
    /\ Permutation l
         (applyFilters (rows st) (Query.filter q) (Query.search q))
    /\ (Query.order q = Some "asc" -> StronglySorted (name_order Sql.ASC) l)
    /\ (Query.order q <> Some "asc" ->
        StronglySorted (name_order Sql.DESC) l).
Proof.
  intros Hs.
  pose proof (getSortClause_name (Query.order q)) as Hc.
  rewrite <- Hs in Hc.
  eexists. rewrite (get_items_clause _ _ _ Hc). simpl.
  split; [reflexivity|]. split; [apply applyFilters_perm, order_by_perm|].
  split; intros Ho; apply applyFilters_sorted;
    (eapply sorted_weaken; [apply name_clause_order|]).
  - rewrite Ho. apply order_by_sorted.
  - destruct (Query.order q) as [o|]; [|apply order_by_sorted].
    destruct (o =? "asc")%string eqn:Heq; [|apply order_by_sorted].
    apply String.eqb_eq in Heq. congruence.
Qed.

Lemma get_items_in_byte_order_witness :
  Query.sort (Query.mk (Some "name") (Some "asc") None None) = Some "name"
  /\ exists l,
       fst (get_items (Query.mk (Some "name") (Some "asc") None None)
              (Sample.after 1002 (PostItem (Sample.named "B"))
                 (Sample.after 1001 (PostItem (Sample.named "a"))
                    Sample.db0)))
       = {| status := 200; json := JItems l |}
       /\ StronglySorted (name_order Sql.ASC) l.
Proof.
  split; [reflexivity|].
  destruct (get_items_in_byte_order
              (Query.mk (Some "name") (Some "asc") None None)
              (Sample.after 1002 (PostItem (Sample.named "B"))
                 (Sample.after 1001 (PostItem (Sample.named "a"))
                    Sample.db0)) eq_refl) as [l [H1 [_ [H3 _]]]].
  exists l. split; [exact H1|]. apply H3. reflexivity.
Defined.

Lemma or_null_not_empty d : Js.or_null d <> Some "".
Proof.
  destruct d as [| |s]; simpl; try discriminate.
  destruct (String.eqb_spec s ""); simpl; congruence.
Qed.

Lemma described_handle E now r st :
  Forall (fun x => Item.description x <> Some "") (rows st) ->
  Forall (fun x => Item.description x <> Some "")
    (rows (snd (handle E now r st))).
Proof.
  intros F.
  destruct r as [q|id|body|id body|id|id]; simpl.
  - destruct (get_items_status q st) as [-> _]. exact F.
  - rewrite get_item_cases. destruct (invalid_id id); auto.
  - rewrite post_item_cases.
    destruct (name_missing _); auto.
    destruct (_ >? 200); auto.
    destruct (due_date_invalid _ _); auto.
    simpl. apply Forall_app. split; auto.
    constructor; [|constructor]. simpl. apply or_null_not_empty.
  - rewrite put_item_cases. destruct (invalid_id id); auto.
    destruct (find _ _); auto.
    destruct (name_missing _); auto.
    destruct (_ >? 200); auto.
    destruct (due_date_invalid _ _); auto.
    simpl. rewrite Forall_map. eapply Forall_impl; [|exact F].
    intros x Hx. destruct (id_is E (Sql.PText id) x); auto.
    simpl. apply or_null_not_empty.
  - rewrite patch_item_cases. destruct (invalid_id id); auto.
    destruct (find _ _); auto.
    simpl. apply Forall_written; auto.
  - rewrite delete_item_cases. destruct (invalid_id id); auto.
    destruct (find _ _); auto.
    simpl. apply Forall_filtered; auto.
Qed.

(** X23. The table holds no empty description. In a reachable database
    the description of a row is NULL or a string that is not empty: an
    empty description never reaches the table. *)
Theorem descriptions_not_empty E t st :
  reachable E t st ->
  Forall (fun r => Item.description r <> Some "") (rows st).
Proof.
  induction 1 as [now due1 due3|t st now r R IH Ht].
  - repeat constructor; simpl; discriminate.
  - apply described_handle. exact IH.
Qed.

Lemma descriptions_not_empty_witness :
  reachable Sample.engine 1001
    (Sample.after 1001 (PutItem "1" (Sample.described "")) Sample.db0)
  /\ Forall (fun r => Item.description r <> Some "")
       (rows (Sample.after 1001 (PutItem "1" (Sample.described ""))
                Sample.db0)).
Proof.
  assert (R : reachable Sample.engine 1001
                (Sample.after 1001 (PutItem "1" (Sample.described ""))
                   Sample.db0)).
  { apply reach_step with (t := 1000); [|lia]. apply reach_init. }
  split; [exact R|].
  apply (descriptions_not_empty Sample.engine 1001 _ R).
Defined.
